(** * Bento: entity / component runtime, collision query, modal pause, renderers

    A shallow embedding of the parts of the Bento sources that the
    specification talks about:

    - [src/js/entity.js]           (module [Entity]),
    - [src/js/components/fill.js]  (its [bento/components/modal] part, module [Modal]),
    - [src/js/renderers/webgl.js]  (the [canvas2d] and [webgl] renderers,
                                    modules [Canvas2d] and [WebGl]).

    Conventions of the embedding.

    - JavaScript numbers that carry geometry or opacity are rationals ([Q]),
      compared with [==]; their arithmetic is exact (no rounding).
    - Objects live in a store indexed by references ([Ref]); a field that
      holds an object holds its reference, so aliasing is kept.
    - A hook of a component ([init], [start], [draw], ...) is user code: an
      arbitrary transformer of the object store, which does not raise; which
      hooks an object has does not change.  The functions of the runtime
      return, next to the new store, the list of the calls they made
      themselves (their trace), in order.
    - An array is mutated in place ([push], slot assignment), so the local
      alias [components] of [this.components] always reads the current
      contents of the field. *)

From Stdlib Require Import QArith Qabs Qround Qminmax ZArith Lia Lqa String HexadecimalString.
From Stdlib Require Import Sorted.
From stdpp Require Import base option list gmap strings.

Local Open Scope Q_scope.

(** * Part I: the program *)

(** ** Geometry: [bento/math/vector2] and [bento/math/rectangle] *)

Record Vector2 := mkVector2 { vx : Q; vy : Q }.

Record Rectangle := mkRectangle { rx : Q; ry : Q; rwidth : Q; rheight : Q }.

(** [a < b] on numbers, as a boolean. *)
Definition Qltb (a b : Q) : bool := negb (Qle_bool b a).

Module Rect.

(** Modelled from the spec: [Rectangle.offset] of [bento/math/rectangle],
    which is not among the sources; "bounding box offset by an optional
    vector": the same size, moved by the vector. *)
Definition offset (r : Rectangle) (v : Vector2) : Rectangle :=
  mkRectangle (rx r + vx v) (ry r + vy v) (rwidth r) (rheight r).

(** Modelled from the spec: [Rectangle.intersect] of [bento/math/rectangle],
    which is not among the sources; "half-open AABB overlap test: overlap
    iff both axes have [min < other.max] and [max > other.min]". *)
Definition intersect (a b : Rectangle) : bool :=
  Qltb (rx a) (rx b + rwidth b) && Qltb (rx b) (rx a + rwidth a) &&
  Qltb (ry a) (ry b + rheight b) && Qltb (ry b) (ry a + rheight a).

End Rect.

(** ** Object references, hooks and traces *)

Definition Ref := nat.

(** The optional methods of the component protocol, and [onCollide] of an
    entity's settings. *)
Inductive HookName :=
  | Init | Start | Destroy | Update | Draw | PostDraw
  | Attached | OnParentAttached | OnParentCollided | OnCollide.

#[global] Instance HookName_eq_dec : EqDecision HookName.
Proof. solve_decision. Defined.

(** What a function of the runtime does to the outside, in order. *)
Inductive Event :=
  | Call (r : Ref) (k : HookName)     (* [r.k(...)] was invoked *)
  | Log (msg : string)                (* [Utils.log(msg)], that is [console.error] *)
  | TransformDraw (r : Ref)           (* [r.transform.draw(data)]: push *)
  | TransformPostDraw (r : Ref).      (* [r.transform.postDraw(data)]: pop *)

#[global] Instance Event_eq_dec : EqDecision Event.
Proof. solve_decision. Defined.

(** ** [bento/entity] *)

Module Entity.

(** The fields of an entity (constructor, entity.js 59-211).  A plain
    component object is stored the same way: it uses [name], [parent] and
    [isAdded] (absent, hence falsy); its other fields are never read. *)
Record t := mk {
  id : nat;
  name : option string;              (* [None]: no such property, [undefined] *)
  isAdded : bool;
  visible : bool;
  position : Vector2;
  origin : Vector2;
  dimension : Rectangle;
  scale : option Vector2;            (* [None]: a falsy [this.scale] *)
  boundingBox : option Rectangle;    (* [None]: [null] *)
  components : list (option Ref);    (* [None]: a slot nulled by [remove] *)
  parent : option Ref                (* [None]: [null] *)
}.

(** The defaults of the constructor (entity.js 66-204), with id 0. *)
Definition blank : t :=
  mk 0 (Some "") false true (mkVector2 0 0) (mkVector2 0 0) (mkRectangle 0 0 0 0)
     (Some (mkVector2 1 1)) None [] None.

#[global] Instance t_inhabited : Inhabited t := populate blank.

Definition with_components (cs : list (option Ref)) (e : t) : t :=
  mk (id e) (name e) (isAdded e) (visible e) (position e) (origin e)
     (dimension e) (scale e) (boundingBox e) cs (parent e).

Definition with_parent (p : option Ref) (e : t) : t :=
  mk (id e) (name e) (isAdded e) (visible e) (position e) (origin e)
     (dimension e) (scale e) (boundingBox e) (components e) p.

Definition with_name (n : option string) (e : t) : t :=
  mk (id e) n (isAdded e) (visible e) (position e) (origin e)
     (dimension e) (scale e) (boundingBox e) (components e) (parent e).

(** *** [getBoundingBox], entity.js 394-423 *)

Definition getBoundingBox (this : t) : Rectangle :=
  match boundingBox this with
  | None =>
      let scale := match scale this with Some s => s | None => mkVector2 1 1 end in
      let x1 := vx (position this) - vx (origin this) * vx scale in
      let y1 := vy (position this) - vy (origin this) * vy scale in
      let x2 := vx (position this) + (rwidth (dimension this) - vx (origin this)) * vx scale in
      let y2 := vy (position this) + (rheight (dimension this) - vy (origin this)) * vy scale in
      (* swap variables if scale is negative *)
      let '(x1, x2) := if Qltb (vx scale) 0 then (x2, x1) else (x1, x2) in
      let '(y1, y2) := if Qltb (vy scale) 0 then (y2, y1) else (y1, y2) in
      mkRectangle x1 y1 (x2 - x1) (y2 - y1)
  | Some box =>
      let scale := match scale this with Some s => s | None => mkVector2 1 1 end in
      mkRectangle (rx box * Qabs (vx scale) + vx (position this))
                  (ry box * Qabs (vy scale) + vy (position this))
                  (rwidth box * Qabs (vx scale))
                  (rheight box * Qabs (vy scale))
  end.

(** *** The store, and the monad of the stateful methods *)

Abbreviation Heap := (gmap Ref t).

(** A computation reads and writes the store and appends to the trace. *)
Definition Run (A : Type) : Type := Heap -> A * Heap * list Event.

Definition ret {A} (a : A) : Run A := fun h => (a, h, []).

Definition bind {A B} (m : Run A) (k : A -> Run B) : Run B := fun h =>
  let '(a, h1, t1) := m h in
  let '(b, h2, t2) := k a h1 in
  (b, h2, t1 ++ t2).

Definition gets {A} (f : Heap -> A) : Run A := fun h => (f h, h, []).

Definition modify (f : Heap -> Heap) : Run unit := fun h => (tt, f h, []).

Definition emit (e : Event) : Run unit := fun h => (tt, h, [e]).

Notation "'let*' x ':=' m 'in' k" := (bind m (fun x => k))
  (at level 10, x name, m at level 100, k at level 200).
Notation "m ';;;' k" := (bind m (fun _ => k))
  (at level 100, k at level 200, right associativity).

Definition result {A} (r : A * Heap * list Event) : A := fst (fst r).
Definition heap {A} (r : A * Heap * list Event) : Heap := snd (fst r).
Definition trace {A} (r : A * Heap * list Event) : list Event := snd r.

(** [for (i = from; i < from + n; ++i) body(i)], the bound fixed at entry. *)
Fixpoint forUp (body : nat -> Run unit) (from n : nat) : Run unit :=
  match n with
  | O => ret tt
  | S n' => body from ;;; forUp body (S from) n'
  end.

(** [for (i = n - 1; i >= 0; i--) body(i)]. *)
Fixpoint forDown (body : nat -> Run unit) (n : nat) : Run unit :=
  match n with
  | O => ret tt
  | S i => body i ;;; forDown body i
  end.

Inductive Completion :=
  | Normal
  | Throw (msg : string).

(** What [attach] hands back: [return;] or [return this;]. *)
Inductive Returned :=
  | RetUndefined
  | RetThis (r : Ref).

(** *** [cleanComponents], entity.js 48-56 *)

(** [for (i = n - 1; i >= 0; --i) if (!components[i]) components.splice(i, 1)] *)
Fixpoint cleanFrom (n : nat) (cs : list (option Ref)) : list (option Ref) :=
  match n with
  | O => cs
  | S i =>
      cleanFrom i (match cs !! i with
                   | Some (Some _) => cs
                   | _ => delete i cs
                   end)
  end.

Definition cleanComponents (entity : t) : t :=
  with_components (cleanFrom (length (components entity)) (components entity)) entity.

(** [components.indexOf(child)]: the first slot that holds [child]. *)
Definition indexOf (child : Ref) (cs : list (option Ref)) : option nat :=
  fst <$> list_find (fun slot => slot = Some child) cs.

(** [components[index] = value]: past the end, the array grows, the slots
    in between being holes (falsy, as a nulled slot is). *)
Definition setSlot (index : nat) (value : option Ref) (cs : list (option Ref))
  : list (option Ref) :=
  if decide (index < length cs)%nat then <[index := value]> cs
  else cs ++ replicate (index - length cs) None ++ [value].

(** [array.splice(start, 0, item)] for an integer [start]: a negative
    [start] counts from the end, and the position is kept within the
    array. *)
Definition spliceIn {A} (start : Z) (item : A) (array : list A) : list A :=
  let len := Z.of_nat (length array) in
  let at_ := if (start <? 0)%Z then Z.max (len + start) 0 else Z.min start len in
  take (Z.to_nat at_) array ++ item :: drop (Z.to_nat at_) array.

(** The hooks the objects carry: [hook r k = Some f] when object [r]
    has a method [k], whose body acts on the store as [f]. *)
Abbreviation Hooks := (Ref -> HookName -> option (Heap -> Heap)).

Section Methods.

Variable hook : Hooks.

(** [if (r.k) { r.k(...) }] *)
Definition callHook (r : Ref) (k : HookName) : Run unit := fun h =>
  match hook r k with
  | Some f => (tt, f h, [Call r k])
  | None => (tt, h, [])
  end.

(** The body shared by the component loops:
    [component = components[i]; if (component && component.k) component.k(data)]. *)
Definition dispatch (this : Ref) (k : HookName) (i : nat) : Run unit :=
  let* component := gets (fun h => components (h !!! this) !! i) in
  match component with
  | Some (Some c) => callHook c k
  | _ => ret tt
  end.

(** *** [draw], entity.js 329-358 *)
Definition draw (this : Ref) : Run unit :=
  let* visible := gets (fun h => visible (h !!! this)) in
  if negb visible then ret tt
  else
    emit (TransformDraw this) ;;;
    (* call components *)
    let* l := gets (fun h => length (components (h !!! this))) in
    forUp (dispatch this Draw) 0 l ;;;
    (* post draw *)
    let* n := gets (fun h => length (components (h !!! this))) in
    forDown (dispatch this PostDraw) n ;;;
    emit (TransformPostDraw this).

(** *** [collided], entity.js 466-490.  [data] is [None] when the
    argument is missing or falsy; the hooks receive [data], which the
    trace does not record. *)
Definition collided (this : Ref) (data : option unit) : Run Completion :=
  match data with
  | None => ret (Throw "Must pass a data object")
  | Some _ =>
      let* l := gets (fun h => length (components (h !!! this))) in
      forUp (dispatch this OnParentCollided) 0 l ;;;
      callHook this OnCollide ;;;
      ret Normal
  end.

(** *** [attach], entity.js 528-567 *)

Definition alreadyAttached (child_name : option string) : string :=
  ("ERROR: Child " +:+ default "undefined" child_name +:+ " was already attached.")%string.

(** [while (parent) { if (parent.isAdded) { if (child.start) child.start(); }
    parent = parent.parent; }].  The loop does not end on a cyclic
    parent chain: [false] reports that [fuel] iterations were not
    enough. *)
Fixpoint startUnderAncestors (fuel : nat) (child : Ref) (parent : option Ref)
  : Run bool :=
  match parent with
  | None => ret true
  | Some p =>
      match fuel with
      | O => ret false
      | S fuel' =>
          let* added := gets (fun h => isAdded (h !!! p)) in
          (if added then callHook child Start else ret tt) ;;;
          let* next := gets (fun h => Entity.parent (h !!! p)) in
          startUnderAncestors fuel' child next
      end
  end.

(** The result is [None] when the ancestor loop ran out of fuel. *)
Definition attach (fuel : nat) (this child : Ref) (force : bool)
  : Run (option Returned) :=
  let* c := gets (fun h => h !!! child) in
  if negb force && (isAdded c || bool_decide (is_Some (parent c))) then
    emit (Log (alreadyAttached (name c))) ;;;
    ret (Some RetUndefined)
  else
    modify (fun h =>
      <[this := with_components (components (h !!! this) ++ [Some child]) (h !!! this)]> h) ;;;
    modify (fun h => <[child := with_parent (Some this) (h !!! child)]> h) ;;;
    callHook child Init ;;;
    callHook child Attached ;;;
    let* added := gets (fun h => isAdded (h !!! this)) in
    if added then
      callHook child Start ;;;
      ret (Some (RetThis this))
    else
      let* up := gets (fun h => parent (h !!! this)) in
      let first := match up with Some p => Some p | None => Some this end in
      let* finished := startUnderAncestors fuel child first in
      ret (if finished then Some (RetThis this) else None).

(** *** [start], entity.js 279-292 *)
Definition start (this : Ref) : Run unit :=
  let* l := gets (fun h => length (components (h !!! this))) in
  forUp (dispatch this Start) 0 l.

(** *** [destroy], entity.js 293-307 *)
Definition destroy (this : Ref) : Run unit :=
  let* l := gets (fun h => length (components (h !!! this))) in
  forUp (dispatch this Destroy) 0 l.

(** *** [update], entity.js 308-328.  The store holds neither the field
    [timer] nor the [data] object: [timer] and [speed] are what
    [this.timer] and [data.speed] hold when line 324 reads them, after the
    hooks have run, and the result is what is written to [this.timer]. *)
Definition update (this : Ref) (speed timer : Q) : Run Q :=
  let* l := gets (fun h => length (components (h !!! this))) in
  forUp (dispatch this Update) 0 l ;;;
  let timer := timer + speed in
  (* clean up *)
  modify (fun h => <[this := cleanComponents (h !!! this)]> h) ;;;
  ret timer.

(** *** [attached], entity.js 438-462 *)
Definition attached (this : Ref) : Run unit :=
  let* l := gets (fun h => length (components (h !!! this))) in
  forUp (dispatch this OnParentAttached) 0 l.

(** *** [remove], entity.js 576-591.  [child] is [None] when the argument
    is missing or falsy. *)
Definition remove (this : Ref) (child : option Ref) : Run Returned :=
  match child with
  | None => ret RetUndefined
  | Some child =>
      let* index := gets (fun h => indexOf child (components (h !!! this))) in
      match index with
      | Some index =>
          callHook child Destroy ;;;
          modify (fun h => <[child := with_parent None (h !!! child)]> h) ;;;
          modify (fun h =>
            <[this := with_components (setSlot index None (components (h !!! this)))
                                      (h !!! this)]> h) ;;;
          ret (RetThis this)
      | None => ret (RetThis this)
      end
  end.

End Methods.

(** *** [getComponent], entity.js 609-621: the first live component whose
    name is [name], with its index (what the callback, when there is one,
    is applied to before the component is returned); the result [None] is
    [null].  The name asked for is a string or, as [None], [undefined];
    [===] holds between equal strings and between [undefined] and
    [undefined]. *)
Fixpoint findNamed (h : Heap) (name : option string) (i : nat) (cs : list (option Ref))
  : option (Ref * nat) :=
  match cs with
  | [] => None
  | Some component :: rest =>
      if bool_decide (Entity.name (h !!! component) = name) then Some (component, i)
      else findNamed h name (S i) rest
  | None :: rest => findNamed h name (S i) rest
  end.

Definition getComponent (h : Heap) (this : Ref) (name : option string)
  : option (Ref * nat) :=
  findNamed h name 0 (components (h !!! this)).

(** *** [moveComponentTo], entity.js 630-643, for an integer [newIndex];
    [component] is [None] when the argument is missing or falsy. *)
Definition moveComponentTo (this : Ref) (component : option Ref) (newIndex : Z)
    (h : Heap) : Heap :=
  match component with
  | None => h
  | Some c =>
      match indexOf c (components (h !!! this)) with
      | Some index =>
          (* remove old, insert at new place *)
          <[this := with_components
                      (spliceIn newIndex (Some c) (delete index (components (h !!! this))))
                      (h !!! this)]> h
      | None => h
      end
  end.

(** *** [collidesWith], entity.js 667-740 *)

(** What the candidate array can hold. *)
Inductive Value :=
  | VEntity (e : t)
  | VArray (l : list t)            (* an array, here of entities *)
  | VObject.                       (* any other (truthy) object *)

(** The settings object; a field is [None] (or the empty string) when it
    is absent or falsy. *)
Record Settings := mkSettings {
  s_offset : option Vector2;
  s_firstOnly : option bool;       (* [None]: not defined *)
  s_onCollide : bool;              (* is there a callback? *)
  s_entity : option Value;
  s_entities : option Value;
  s_name : string;
  s_family : string
}.

(** The three shapes of the first argument. *)
Inductive Query :=
  | QEntity (e : t) (deprecated_offset : option Vector2) (deprecated_callback : bool)
  | QArray (l : list Value) (deprecated_offset : option Vector2) (deprecated_callback : bool)
  | QSettings (s : Settings).

(** The registry lookups of the object manager, which is not among the
    sources: they "return ordered sequences of live entities". *)
Record Registry := mkRegistry {
  getByName : string -> list t;
  getByFamily : string -> list t
}.

Inductive Result :=
  | RNull
  | RObject (v : Value)
  | RArray (l : list Value).

Inductive CollideEvent :=
  | Warning (msg : string)         (* [Utils.log] *)
  | Callback (v : Value).          (* [callback(obj)] *)

(** [obj.id && obj.id === this.id] *)
Definition sameId (this : t) (obj : Value) : bool :=
  match obj with
  | VEntity e => negb (Nat.eqb (id e) 0) && Nat.eqb (id e) (id this)
  | _ => false
  end.

(** [obj.getBoundingBox && box.intersect(obj.getBoundingBox())] *)
Definition hitBy (box : Rectangle) (obj : Value) : bool :=
  match obj with
  | VEntity e => Rect.intersect box (getBoundingBox e)
  | _ => false
  end.

(** The loop of entity.js 720-739; [collisions] is the accumulator,
    [None] while it is still [null]. *)
Fixpoint scan (this : t) (box : Rectangle) (callback firstOnly : bool)
    (array : list Value) (collisions : option (list Value))
  : Result * list CollideEvent :=
  match array with
  | [] => (match collisions with None => RNull | Some l => RArray l end, [])
  | obj :: rest =>
      if sameId this obj then scan this box callback firstOnly rest collisions
      else if hitBy box obj then
        let called := if callback then [Callback obj] else [] in
        if firstOnly then (RObject obj, called)
        else
          let collisions := match collisions with Some l => l | None => [] end in
          let '(r, t) := scan this box callback firstOnly rest (Some (collisions ++ [obj])) in
          (r, called ++ t)
      else scan this box callback firstOnly rest collisions
  end.

(** What the reading of the arguments (entity.js 678-714) ends in. *)
Inductive Candidates :=
  | Refused (msg : string)         (* logged, [return null] *)
  | Scan (array : list Value) (offset : Vector2) (callback firstOnly : bool).

Definition isNonEmpty (s : string) : bool :=
  match s with EmptyString => false | _ => true end.

Definition readQuery (objects : Registry) (settings : Query) : Candidates :=
  let offset := mkVector2 0 0 in
  match settings with
  | QEntity e deprecated_offset deprecated_callback =>
      Scan [VEntity e] (default offset deprecated_offset) deprecated_callback true
  | QArray l deprecated_offset deprecated_callback =>
      Scan l (default offset deprecated_offset) deprecated_callback true
  | QSettings s =>
      let offset := default offset (s_offset s) in
      let firstOnly := default true (s_firstOnly s) in
      let callback := s_onCollide s in
      match s_entity s, s_entities s with
      | Some (VEntity e), _ => Scan [VEntity e] offset callback firstOnly
      | Some _, _ => Refused "WARNING: settings.entity is not an entity"
      | None, Some (VArray l) => Scan [VArray l] offset callback firstOnly
      | None, Some _ => Refused "WARNING: settings.entity is not an entity"
      | None, None =>
          if isNonEmpty (s_name s) then
            Scan (VEntity <$> getByName objects (s_name s)) offset callback firstOnly
          else if isNonEmpty (s_family s) then
            Scan (VEntity <$> getByFamily objects (s_family s)) offset callback firstOnly
          else Scan [] offset callback firstOnly
      end
  end.

Definition collidesWith (objects : Registry) (this : t) (settings : Query)
  : Result * list CollideEvent :=
  match readQuery objects settings with
  | Refused msg => (RNull, [Warning msg])
  | Scan array offset callback firstOnly =>
      match array with
      | [] => (RNull, [])
      | _ =>
          let box := Rect.offset (getBoundingBox this) offset in
          scan this box callback firstOnly array None
      end
  end.

(** *** [collidesWithGroup], entity.js 754-790 *)

(** The two shapes of the call: the old one, taken when the first argument
    is an array or a second or third argument is given, and the settings
    object with [other], [offset] and [onCollide]. *)
Inductive GroupQuery :=
  | GOld (settings : Value) (deprecated_offset : option Vector2) (deprecated_callback : bool)
  | GSettings (other : option Value) (offset : option Vector2) (onCollide : bool).

Inductive GroupResult :=
  | GUndefined                       (* [return;] after the error is logged *)
  | GOffsetMissing                   (* [offset(undefined)] is asked of the box *)
  | GReturn (r : Result).

Definition collidesWithGroup (this : t) (settings : GroupQuery)
  : GroupResult * list CollideEvent :=
  let '(array, offset, callback) :=
    match settings with
    | GOld settings deprecated_offset deprecated_callback =>
        (Some settings, Some (default (mkVector2 0 0) deprecated_offset), deprecated_callback)
    | GSettings other offset onCollide => (other, offset, onCollide)
    end in
  match array with
  | Some (VArray l) =>
      match l with
      | [] => (GReturn RNull, [])
      | _ =>
          match offset with
          | None => (GOffsetMissing, [])
          | Some offset =>
              let box := Rect.offset (getBoundingBox this) offset in
              let '(r, t) := scan this box callback true (VEntity <$> l) None in
              (GReturn r, t)
          end
      end
  | _ => (GUndefined, [Warning "ERROR: Collision check must be with an Array of object"])
  end.

End Entity.

(** ** [bento/components/modal], fill.js 54-113 *)

Module Modal.

(** The values a pause level variable can hold: a number, [undefined]
    (a variable never assigned, an absent setting), or [NaN]
    ([undefined + 1]). *)
Inductive JsNum :=
  | Undefined
  | NaN
  | Num (z : Z).

(** [a < b] *)
Definition lt (a b : JsNum) : bool :=
  match a, b with
  | Num x, Num y => Z.ltb x y
  | _, _ => false
  end.

(** [a + 1] *)
Definition succ (a : JsNum) : JsNum :=
  match a with
  | Num x => Num (x + 1)
  | _ => NaN
  end.

Definition truthy (a : JsNum) : bool :=
  match a with
  | Num x => negb (Z.eqb x 0)
  | _ => false
  end.

(** [a !== b] *)
Definition strictNe (a b : JsNum) : bool :=
  match a, b with
  | Num x, Num y => negb (Z.eqb x y)
  | Undefined, Undefined => false
  | _, _ => true
  end.

(** An operand of the [+] chain that builds a message: a piece of text,
    or a number, which is printed where it is appended. *)
Inductive Part :=
  | Text (s : string)
  | Value (n : JsNum).

(** What the component acts on: the pause level kept by the object
    manager, the [updateWhenPaused] field of the entities, and the
    messages given to [Utils.log], each as the operands it is built from. *)
Record World := mkWorld {
  level : JsNum;
  updateWhenPaused : gmap Ref JsNum;
  logged : list (list Part)
}.

(** Modelled from the spec: [Bento.objects.isPaused()] of the object
    manager, which is not among the sources; it reads the "single
    process-wide integer pause level". *)
Definition isPaused (w : World) : JsNum := level w.

(** Modelled from the spec: [Bento.objects.pause(level)] of the object
    manager, which is not among the sources; it sets the pause level. *)
Definition pause (l : JsNum) (w : World) : World :=
  mkWorld l (updateWhenPaused w) (logged w).

(** The variables of one modal component: the closure variables
    [entity], [pauseLevel] (the target) and [oldPauseLevel], the field
    [component.pauseLevel] and the two settings read later. *)
Record t := mk {
  settings_pauseLevel : JsNum;
  surpressWarnings : bool;
  entity : option Ref;
  pauseLevel : JsNum;
  oldPauseLevel : JsNum;
  component_pauseLevel : JsNum
}.

(** [Modal(settings)], fill.js 72-81 *)
Definition create (settings_pauseLevel : JsNum) (surpressWarnings : bool) : t :=
  mk settings_pauseLevel surpressWarnings None settings_pauseLevel Undefined (Num 0).

Inductive Completion :=
  | Normal
  | TypeError.                     (* a property of [undefined] was written *)

(** The warning of fill.js 89:
    ['Warning: target pauseLevel (' + settings.pauseLevel +
     ') is lower than current pause (' + oldPauseLevel + ')']. *)
Definition lowerTarget (settings_pauseLevel oldPauseLevel : JsNum) : list Part :=
  [Text "Warning: target pauseLevel ("; Value settings_pauseLevel;
   Text ") is lower than current pause ("; Value oldPauseLevel; Text ")"].

(** [start], fill.js 82-98 *)
Definition start (m : t) (w : World) : t * World * Completion :=
  (* set pauselevel to target or current + 1 *)
  let oldPauseLevel := isPaused w in
  let lower := lt (pauseLevel m) oldPauseLevel in
  let pauseLevel := if lower then succ oldPauseLevel else pauseLevel m in
  let w := if lower && negb (surpressWarnings m)
           then mkWorld (level w) (updateWhenPaused w)
                        (logged w ++ [lowerTarget (settings_pauseLevel m) oldPauseLevel])
           else w in
  let component_pauseLevel :=
    if truthy pauseLevel then pauseLevel else succ oldPauseLevel in
  let w := pause component_pauseLevel w in
  let m := mk (settings_pauseLevel m) (surpressWarnings m) (entity m)
              pauseLevel oldPauseLevel component_pauseLevel in
  (* entity ignores the pause *)
  match entity m with
  | Some e =>
      (m, mkWorld (level w) (<[e := component_pauseLevel]> (updateWhenPaused w)) (logged w),
       Normal)
  | None => (m, w, TypeError)
  end.

(** [destroy], fill.js 99-106 *)
Definition destroy (m : t) (w : World) : World :=
  (* revert pause *)
  if strictNe (isPaused w) (component_pauseLevel m) then w
  else pause (oldPauseLevel m) w.

(** [attached], fill.js 107-109; [data_entity] is [data.entity]. *)
Definition attached (data_entity : Ref) (m : t) : t :=
  mk (settings_pauseLevel m) (surpressWarnings m) (Some data_entity)
     (pauseLevel m) (oldPauseLevel m) (component_pauseLevel m).

End Modal.

(** ** The renderers, webgl.js *)

(** A color at the renderer contract: the array [[r, g, b, a]]. *)
Record Color := mkColor { red : Q; green : Q; blue : Q; alpha : Q }.

(** [n.toString(16)] for an integer [n]. *)
Definition toString16 (n : Z) : string :=
  HexadecimalString.NilZero.string_of_int (Z.to_hex_int n).

(** [s.slice(-2)] *)
Definition slice2 (s : string) : string :=
  substring (String.length s - 2) 2 s.

(** [('00' + Math.floor(c * 255).toString(16)).slice(-2)] *)
Definition channel (c : Q) : string :=
  slice2 ("00" +:+ toString16 (Qfloor (c * 255))).

Module Canvas2d.

(** What was drawn on a 2d context, with the style and the opacity in
    force at that moment. *)
Inductive Drawn :=
  | FillRect (style : string) (opacity : Q) (x y w h : Q)
  | StrokeRect (style : string) (opacity : Q) (x y w h : Q).

(** The state of a [CanvasRenderingContext2D] that the renderer touches;
    assigning a field stores the value. *)
Record Context := mkContext {
  globalAlpha : Q;
  fillStyle : string;
  strokeStyle : string;
  drawn : list Drawn
}.

#[global] Instance Context_inhabited : Inhabited Context :=
  populate (mkContext 1 "#000000" "#000000" []).

(** The closure of one renderer (webgl.js 137-139) and the contexts it
    can reach: [canvas] is what [canvas.getContext('2d')] returns. *)
Record t := mk {
  canvas : Ref;
  context : Ref;
  original : Ref;
  contexts : gmap Ref Context
}.

(** [Canvas2d(canvas, settings)], webgl.js 137-139 *)
Definition create (canvas : Ref) (contexts : gmap Ref Context) : t :=
  mk canvas canvas canvas contexts.

(** An update of the context that [context] refers to. *)
Definition onContext (f : Context -> Context) (r : t) : t :=
  mk (canvas r) (context r) (original r)
     (<[context r := f (contexts r !!! context r)]> (contexts r)).

Definition setGlobalAlpha (a : Q) (c : Context) : Context :=
  mkContext a (fillStyle c) (strokeStyle c) (drawn c).

Definition setFillStyle (s : string) (c : Context) : Context :=
  mkContext (globalAlpha c) s (strokeStyle c) (drawn c).

Definition setStrokeStyle (s : string) (c : Context) : Context :=
  mkContext (globalAlpha c) (fillStyle c) s (drawn c).

(** [context.fillRect(x, y, w, h)] and [context.strokeRect(x, y, w, h)] *)
Definition ctxFillRect (x y w h : Q) (c : Context) : Context :=
  mkContext (globalAlpha c) (fillStyle c) (strokeStyle c)
            (drawn c ++ [FillRect (fillStyle c) (globalAlpha c) x y w h]).

Definition ctxStrokeRect (x y w h : Q) (c : Context) : Context :=
  mkContext (globalAlpha c) (fillStyle c) (strokeStyle c)
            (drawn c ++ [StrokeRect (strokeStyle c) (globalAlpha c) x y w h]).

Definition colorStr (colorArray : Color) : string :=
  "#" +:+ channel (red colorArray) +:+ channel (green colorArray)
      +:+ channel (blue colorArray).

(** [colorArray[3] !== 1] *)
Definition notOpaque (colorArray : Color) : bool :=
  negb (Qeq_bool (alpha colorArray) 1).

(** [getOpacity], webgl.js 190-192 *)
Definition getOpacity (r : t) : Q := globalAlpha (contexts r !!! context r).

(** [setOpacity], webgl.js 193-195 *)
Definition setOpacity (value : Q) (r : t) : t := onContext (setGlobalAlpha value) r.

(** [fillRect], webgl.js 157-171 *)
Definition fillRect (colorArray : Color) (x y w h : Q) (r : t) : t :=
  let oldOpacity := globalAlpha (contexts r !!! context r) in
  let r := if notOpaque colorArray
           then onContext (setGlobalAlpha (alpha colorArray)) r else r in
  let r := onContext (setFillStyle (colorStr colorArray)) r in
  let r := onContext (ctxFillRect x y w h) r in
  if notOpaque colorArray then onContext (setGlobalAlpha oldOpacity) r else r.

(** [strokeRect], webgl.js 172-186 *)
Definition strokeRect (colorArray : Color) (x y w h : Q) (r : t) : t :=
  let oldOpacity := globalAlpha (contexts r !!! context r) in
  let r := if notOpaque colorArray
           then onContext (setGlobalAlpha (alpha colorArray)) r else r in
  let r := onContext (setStrokeStyle (colorStr colorArray)) r in
  let r := onContext (ctxStrokeRect x y w h) r in
  if notOpaque colorArray then onContext (setGlobalAlpha oldOpacity) r else r.

(** [createSurface], webgl.js 196-206: the context handed back is that of
    [canvas], the renderer's own canvas. *)
Definition createSurface (width height : Q) (r : t) : Ref := canvas r.

(** [setContext], webgl.js 207-209 *)
Definition setContext (ctx : Ref) (r : t) : t :=
  mk (canvas r) ctx (original r) (contexts r).

(** [restoreContext], webgl.js 210-212 *)
Definition restoreContext (r : t) : t :=
  mk (canvas r) (original r) (original r) (contexts r).

End Canvas2d.

Module WebGl.

(** What a sprite renderer of [GlSprites] (not among the sources) was
    asked to draw, with the color in force. *)
Inductive Drawn :=
  | FillRect (color : Color) (x y w h : Q)
  | StrokeRect (color : Color) (x y w h : Q).

(** The state of a [GlSprites.SpriteRenderer] that the renderer touches. *)
Record Sprites := mkSprites {
  color : Color;
  drawn : list Drawn
}.

#[global] Instance Sprites_inhabited : Inhabited Sprites :=
  populate (mkSprites (mkColor 1 1 1 1) []).

(** The closure of one renderer (webgl.js 19-21) and the sprite renderers
    it can reach. *)
Record t := mk {
  glRenderer : Ref;
  original : Ref;
  renderers : gmap Ref Sprites
}.

(** The accelerated branch of the constructor, webgl.js 116-124:
    [fresh] is the new [SpriteRenderer]. *)
Definition create (fresh : Ref) (renderers : gmap Ref Sprites) : t :=
  mk fresh fresh renderers.

Definition onRenderer (f : Sprites -> Sprites) (r : t) : t :=
  mk (glRenderer r) (original r)
     (<[glRenderer r := f (renderers r !!! glRenderer r)]> (renderers r)).

(** [setColor], webgl.js 71-73 *)
Definition setColor (c : Color) (r : t) : t :=
  onRenderer (fun s => mkSprites c (drawn s)) r.

(** [fillRect], webgl.js 43-49 *)
Definition fillRect (c : Color) (x y w h : Q) (r : t) : t :=
  let oldColor := color (renderers r !!! glRenderer r) in
  let r := setColor c r in
  let r := onRenderer (fun s => mkSprites (color s) (drawn s ++ [FillRect (color s) x y w h])) r in
  onRenderer (fun s => mkSprites oldColor (drawn s)) r.

(** [strokeRect], webgl.js 51-57 *)
Definition strokeRect (c : Color) (x y w h : Q) (r : t) : t :=
  let oldColor := color (renderers r !!! glRenderer r) in
  let r := setColor c r in
  let r := onRenderer (fun s => mkSprites (color s) (drawn s ++ [StrokeRect (color s) x y w h])) r in
  onRenderer (fun s => mkSprites oldColor (drawn s)) r.

(** [getOpacity], webgl.js 74-76 *)
Definition getOpacity (r : t) : Q := alpha (color (renderers r !!! glRenderer r)).

(** [setOpacity], webgl.js 77-79 *)
Definition setOpacity (value : Q) (r : t) : t :=
  onRenderer (fun s =>
    mkSprites (mkColor (red (color s)) (green (color s)) (blue (color s)) value) (drawn s)) r.

(** [setContext], webgl.js 97-99 *)
Definition setContext (ctx : Ref) (r : t) : t :=
  mk ctx (original r) (renderers r).

(** [restoreContext], webgl.js 100-102 *)
Definition restoreContext (r : t) : t :=
  mk (original r) (original r) (renderers r).

End WebGl.

(** The renderer that the [webgl] module hands back (webgl.js 116-128):
    its own when the host can do WebGL and [GlSprites] is there, the
    [canvas2d] one otherwise. *)
Inductive Renderer :=
  | OfWebGl (r : WebGl.t)
  | OfCanvas2d (r : Canvas2d.t).

Definition webglModule (canWebGl glSprites : bool)
    (fresh : Ref) (renderers : gmap Ref WebGl.Sprites)
    (canvas : Ref) (contexts : gmap Ref Canvas2d.Context) : Renderer :=
  if canWebGl && glSprites then OfWebGl (WebGl.create fresh renderers)
  else OfCanvas2d (Canvas2d.create canvas contexts).

(** The drawing target in use: [glRenderer], respectively [context]. *)
Definition activeContext (r : Renderer) : Ref :=
  match r with
  | OfWebGl r => WebGl.glRenderer r
  | OfCanvas2d r => Canvas2d.context r
  end.

Definition setContext (ctx : Ref) (r : Renderer) : Renderer :=
  match r with
  | OfWebGl r => OfWebGl (WebGl.setContext ctx r)
  | OfCanvas2d r => OfCanvas2d (Canvas2d.setContext ctx r)
  end.

Definition restoreContext (r : Renderer) : Renderer :=
  match r with
  | OfWebGl r => OfWebGl (WebGl.restoreContext r)
  | OfCanvas2d r => OfCanvas2d (Canvas2d.restoreContext r)
  end.

(** The calls of the renderer contract that both back ends answer by
    changing their state. *)
Inductive RendererCall :=
  | CFillRect (color : Color) (x y w h : Q)
  | CStrokeRect (color : Color) (x y w h : Q)
  | CSetOpacity (value : Q)
  | CSetContext (ctx : Ref)
  | CRestoreContext.

Definition call (r : Renderer) (c : RendererCall) : Renderer :=
  match r with
  | OfWebGl r =>
      OfWebGl match c with
              | CFillRect color x y w h => WebGl.fillRect color x y w h r
              | CStrokeRect color x y w h => WebGl.strokeRect color x y w h r
              | CSetOpacity value => WebGl.setOpacity value r
              | CSetContext ctx => WebGl.setContext ctx r
              | CRestoreContext => WebGl.restoreContext r
              end
  | OfCanvas2d r =>
      OfCanvas2d match c with
                 | CFillRect color x y w h => Canvas2d.fillRect color x y w h r
                 | CStrokeRect color x y w h => Canvas2d.strokeRect color x y w h r
                 | CSetOpacity value => Canvas2d.setOpacity value r
                 | CSetContext ctx => Canvas2d.setContext ctx r
                 | CRestoreContext => Canvas2d.restoreContext r
                 end
  end.

(** A sequence of calls, first to last. *)
Definition calls (cs : list RendererCall) (r : Renderer) : Renderer :=
  fold_left call cs r.

(** ** [bento/utils], webgl.js 235-1397 *)

Module Utils.







(** [x | 0]: the conversion to a signed 32 bit integer that the bit
    operators make. *)
Definition toInt32 (x : Z) : Z := ((x + 2 ^ 31) mod 2 ^ 32 - 2 ^ 31)%Z.

(** [checksum], webgl.js 928-942; the string is given by its char codes. *)
Definition checksum (str : list Z) : Z :=
  fold_left (fun hash c =>
               let hash := (toInt32 (toInt32 hash * 2 ^ 5) - hash + c)%Z in
               toInt32 hash (* Convert to 32bit integer *))
            str 0%Z.

(** [removeFromArray], webgl.js 289-298: [None] when [fuel] turns of the
    loop were not enough. *)
Fixpoint removeLoop {A} `{EqDecision A} (fuel : nat) (array : list A) (obj : A)
    (removed : bool) : option (list A * bool) :=
  match list_find (fun x => x = obj) array with
  | None => Some (array, removed)
  | Some (index, _) =>
      match fuel with
      | O => None
      | S fuel' => removeLoop fuel' (delete index array) obj true
      end
  end.

Definition removeFromArray {A} `{EqDecision A} (fuel : nat) (array : list A) (obj : A)
  : option (list A * bool) :=
  removeLoop fuel array obj false.

(** *** [stableSort], webgl.js 366-459: merge sort without recursion *)

Section StableSort.

Context {A : Type}.

(** [String(a).localeCompare(b)], the comparison of the host that is used
    when no comparator is given. *)
Variable localeCompare : A -> A -> Z.

(** The [while (true)] loop of [pass] on the chunks [arr[l..r)] and
    [arr[r..e)]: the next entry is the left one when [comp] of the two is
    not positive; a chunk that is left over is copied. *)
Fixpoint merge (comp : A -> A -> Z) (left : list A) : list A -> list A :=
  fix mergeRight (right : list A) : list A :=
    match left, right with
    | [], _ => right
    | _, [] => left
    | a :: left', b :: right' =>
        if (comp a b <=? 0)%Z then a :: merge comp left' right
        else b :: mergeRight right'
    end.

(** The [for] loop of [pass] from [l] on, [rest] being [arr[l..]]: the
    pair of chunks at the front is merged, then the pairs after it.
    [fuel] bounds the turns; [None] when they were not enough. *)
Fixpoint passFrom (fuel : nat) (comp : A -> A -> Z) (chk : nat) (rest : list A)
  : option (list A) :=
  match rest with
  | [] => Some []
  | _ =>
      match fuel with
      | O => None
      | S fuel' =>
          match passFrom fuel' comp chk (drop (2 * chk) rest) with
          | Some tail => Some (merge comp (take chk rest) (take chk (drop chk rest)) ++ tail)
          | None => None
          end
      end
  end.

(** [pass(arr, comp, chk, result)]: what [result] holds afterwards.  A
    turn takes at least one entry when [chk] is positive, so as many
    turns as the array is long are all there can be; with [chk] 0 the
    loop does not end, and the result is [None]. *)
Definition pass (comp : A -> A -> Z) (chk : nat) (arr : list A) : option (list A) :=
  passFrom (length arr) comp chk arr.

(** The loop of [exec]: [chk] doubles until it covers the array;
    [swapped] tells whether the result is in the buffer. *)
Fixpoint execLoop (fuel : nat) (comp : A -> A -> Z) (chk : nat) (arr : list A)
    (swapped : bool) : option (list A * bool) :=
  if (chk <? length arr)%nat then
    match fuel with
    | O => None
    | S fuel' =>
        match pass comp chk arr with
        | Some buffer => execLoop fuel' comp (chk * 2) buffer (negb swapped)
        | None => None
        end
    end
  else Some (arr, swapped).

(** [exec(arr, comp)]; [comp] is [None] when what is given is not a
    function. *)
Definition exec (arr : list A) (comp : option (A -> A -> Z)) : option (list A * bool) :=
  let comp := default localeCompare comp in
  (* Short-circuit when there's nothing to sort. *)
  if (length arr <=? 1)%nat then Some (arr, false)
  else execLoop (length arr) comp 1 arr false.

(** [stable(arr, comp)]: the sorted copy. *)
Definition stableSort (arr : list A) (comp : option (A -> A -> Z)) : option (list A) :=
  fst <$> exec arr comp.

(** [stable.inplace(arr, comp)]: what [arr] holds afterwards; the copying
    back is a [pass] with one chunk, in which the comparator ([null]) is
    never asked. *)
Definition inplace (arr : list A) (comp : option (A -> A -> Z)) : option (list A) :=
  match exec arr comp with
  | Some (result, true) => pass (fun _ _ => 0%Z) (length arr) result
  | Some (result, false) => Some result
  | None => None
  end.

End StableSort.

End Utils.

(** * Part II: the notions the statements use *)

(** The scale the bounding box is computed with: [this.scale], or (1, 1)
    when that is falsy. *)
Definition effectiveScale (e : Entity.t) : Vector2 :=
  match Entity.scale e with Some s => s | None => mkVector2 1 1 end.

(** The candidates that a scan by [this] reports: those that are not
    skipped as [this] itself and whose box meets the box of [this] moved
    by [offset], in the order of the array. *)
Definition hits (this : Entity.t) (offset : Vector2) (array : list Entity.Value)
  : list Entity.Value :=
  List.filter
    (fun obj => negb (Entity.sameId this obj) &&
                Entity.hitBy (Rect.offset (Entity.getBoundingBox this) offset) obj)
    array.

(** The live components of a list: the slots that are not nulled. *)
Definition live (cs : list (option Ref)) : list Ref := omap (fun c => c) cs.

(** Those of [rs] that have the hook [k]. *)
Definition having (hook : Entity.Hooks)
    (k : HookName) (rs : list Ref) : list Ref :=
  List.filter (fun r => bool_decide (is_Some (hook r k))) rs.

(** The trace of [if (r.k) r.k()]. *)
Definition callOf (hook : Entity.Hooks)
    (r : Ref) (k : HookName) : list Event :=
  match hook r k with Some _ => [Call r k] | None => [] end.

(** The store after the hook calls of a trace have acted on it, in order. *)
Fixpoint replay (hook : Entity.Hooks)
    (tr : list Event) (h : Entity.Heap) : Entity.Heap :=
  match tr with
  | [] => h
  | Call r k :: tr' =>
      replay hook tr' (match hook r k with Some f => f h | None => h end)
  | _ :: tr' => replay hook tr' h
  end.

(** The store once [child] sits at the end of the components of [this]
    and has [this] as its parent. *)
Definition linked (this child : Ref) (h : Entity.Heap) : Entity.Heap :=
  let h1 := <[this := Entity.with_components
                        (Entity.components (h !!! this) ++ [Some child]) (h !!! this)]> h in
  <[child := Entity.with_parent (Some this) (h1 !!! child)]> h1.

(** No hook [k] changes the component list of [this]. *)
Definition keepsComponents (hook : Entity.Hooks)
    (k : HookName) (this : Ref) : Prop :=
  forall c f, hook c k = Some f ->
  forall h : Entity.Heap, Entity.components (f h !!! this) = Entity.components (h !!! this).

(** The draw pass over the component list [cs]: push, [draw] forward,
    [postDraw] backward, pop. *)
Definition drawPass (hook : Entity.Hooks)
    (this : Ref) (cs : list (option Ref)) : list Event :=
  [TransformDraw this]
  ++ map (fun c => Call c Draw) (having hook Draw (live cs))
  ++ map (fun c => Call c PostDraw) (rev (having hook PostDraw (live cs)))
  ++ [TransformPostDraw this].

(** The drawing target that the renderer captured when it was made. *)
Definition originalOf (r : Renderer) : Ref :=
  match r with
  | OfWebGl r => WebGl.original r
  | OfCanvas2d r => Canvas2d.original r
  end.

(** Modals started one after the other, each at the pause level the one
    before left: the modals as they are after their start, and the world. *)
Fixpoint startAll (ms : list Modal.t) (w : Modal.World) : list Modal.t * Modal.World :=
  match ms with
  | [] => ([], w)
  | m :: ms' =>
      let '(m1, w1, _) := Modal.start m w in
      let '(started, w2) := startAll ms' w1 in
      (m1 :: started, w2)
  end.

(** Modals destroyed one after the other, in the order of the list. *)
Definition destroyAll (ms : list Modal.t) (w : Modal.World) : Modal.World :=
  fold_left (fun w m => Modal.destroy m w) ms w.


(** The hash of Java's [String.hashCode]: the char codes as the digits
    of a number in base 31, the first one the most significant. *)
Definition base31 (str : list Z) : Z :=
  fold_left (fun acc c => (31 * acc + c)%Z) str 0%Z.

(** The array cut into chunks of [chk] entries, the last one possibly
    shorter. *)
Inductive Chunked {A} (chk : nat) : list (list A) -> Prop :=
  | Chunked_nil : Chunked chk []
  | Chunked_last (c : list A) :
      (0 < length c <= chk)%nat -> Chunked chk [c]
  | Chunked_cons (c : list A) (cs : list (list A)) :
      length c = chk -> cs <> [] -> Chunked chk cs -> Chunked chk (c :: cs).

(** Neighbouring chunks merged two by two. *)
Fixpoint mergePairs {A} (comp : A -> A -> Z) (cs : list (list A)) : list (list A) :=
  match cs with
  | c1 :: c2 :: rest => Utils.merge comp c1 c2 :: mergePairs comp rest
  | _ => cs
  end.

(** The order a comparator stands for: [a] may come before [b]. *)
Definition before {A} (comp : A -> A -> Z) (a b : A) : Prop := (comp a b <= 0)%Z.

(** Entries that the comparator does not tell apart. *)
Definition tied {A} (comp : A -> A -> Z) (a b : A) : bool :=
  (comp a b <=? 0)%Z && (comp b a <=? 0)%Z.

(** A comparator that stands for an order: any two entries are comparable,
    and the order is transitive. *)
Definition consistent {A} (comp : A -> A -> Z) : Prop :=
  (forall a b, before comp a b \/ before comp b a) /\
  (forall a b c, before comp a b -> before comp b c -> before comp a c).

(** A comparator on pairs that looks at the first entry only. *)
Definition byKey (a b : Z * string) : Z := (a.1 - b.1)%Z.

(** ** Scenes and hook tables for the worked cases *)


(** A box of positive size at [(x, y)], unscaled, origin at its corner. *)
Definition square (id : nat) (x y size : Q) : Entity.t :=
  Entity.mk id (Some "") false true (mkVector2 x y) (mkVector2 0 0)
            (mkRectangle 0 0 size size) (Some (mkVector2 1 1)) None [] None.

(** A registry with one family, "enemies". *)
Definition enemies (members : list Entity.t) : Entity.Registry :=
  Entity.mkRegistry (fun _ => [])
                    (fun f => if String.eqb f "enemies" then members else []).

(** Collect all collisions with the family "enemies". *)
Definition allEnemies : Entity.Query :=
  Entity.QSettings (Entity.mkSettings None (Some false) false None None "" "enemies").

(** An object with the default geometry. *)
Definition object (id : nat) (name : string) (isAdded : bool)
    (components : list (option Ref)) (parent : option Ref) : Entity.t :=
  Entity.mk id (Some name) isAdded true (mkVector2 0 0) (mkVector2 0 0)
            (mkRectangle 0 0 0 0) (Some (mkVector2 1 1)) None components parent.

(** Every object has every hook, and no hook touches the store. *)
Definition idleHooks : Entity.Hooks :=
  fun _ _ => Some (fun h => h).

(** Entity 0 owns component 1; entity 2 stands alone. *)
Definition owned : Entity.Heap :=
  <[0%nat := object 0 "owner" false [Some 1%nat] None]>
  (<[1%nat := object 1 "kid" false [] (Some 0%nat)]>
  (<[2%nat := object 2 "other" false [] None]> ∅)).

(** Only object 3 has a hook: [start], which leaves the store alone. *)
Definition startOf3 : Entity.Hooks :=
  fun r k =>
    match r, k with
    | 3%nat, Start => Some (fun h => h)
    | _, _ => None
    end.

(** Entity 2 is not live; its parent 1 and its grandparent 0 both are.
    Object 3 is not attached yet. *)
Definition liveChain : Entity.Heap :=
  <[0%nat := object 0 "root" true [Some 1%nat] None]>
  (<[1%nat := object 1 "middle" true [Some 2%nat] (Some 0%nat)]>
  (<[2%nat := object 2 "leaf" false [] (Some 1%nat)]>
  (<[3%nat := object 3 "child" false [] None]> ∅))).

(** Components 1 and 2 both have [draw] and [postDraw], which leave the
    store alone; nothing else has a hook. *)
Definition plainPainters : Entity.Hooks :=
  fun r k =>
    match r, k with
    | 1%nat, Draw | 1%nat, PostDraw | 2%nat, Draw | 2%nat, PostDraw => Some (fun h => h)
    | _, _ => None
    end.

(** The same, but the [draw] of component 1 calls [attach] of entity 0 to
    add component 2 (which has no [init], [attached] or [start] for that
    [attach] to call). *)
Definition attachingPainter : Entity.Hooks :=
  fun r k =>
    match r, k with
    | 1%nat, Draw => Some (fun h => Entity.heap (Entity.attach plainPainters 4 0%nat 2%nat false h))
    | _, _ => plainPainters r k
    end.

(** Entity 0 is visible and has the one component 1; object 2 is free. *)
Definition canvasOwner : Entity.Heap :=
  <[0%nat := object 0 "scene" false [Some 1%nat] None]>
  (<[1%nat := object 1 "first" false [] (Some 0%nat)]>
  (<[2%nat := object 2 "second" false [] None]> ∅)).

(** Entity 0 with two live components around a nulled slot. *)
Definition twoPainters : Entity.Heap :=
  <[0%nat := object 0 "scene" false [Some 1%nat; None; Some 2%nat] None]>
  (<[1%nat := object 1 "first" false [] (Some 0%nat)]>
  (<[2%nat := object 2 "second" false [] (Some 0%nat)]> ∅)).

(** Entity 0 with three components: a plain object without a [name]
    property, one whose name is the empty string, and one named "hud". *)
Definition nameless : Entity.Heap :=
  <[0%nat := object 0 "scene" false [Some 1%nat; Some 2%nat; Some 3%nat] None]>
  (<[1%nat := Entity.with_name None (object 1 "" false [] (Some 0%nat))]>
  (<[2%nat := object 2 "" false [] (Some 0%nat)]>
  (<[3%nat := object 3 "hud" false [] (Some 0%nat)]> ∅))).

(** Components 1 and 2 both have [onParentCollided], which leaves the
    store alone; nothing else has a hook. *)
Definition plainColliders : Entity.Hooks :=
  fun r k =>
    match r, k with
    | 1%nat, OnParentCollided | 2%nat, OnParentCollided => Some (fun h => h)
    | _, _ => None
    end.

(** The same, but the [onParentCollided] of component 1 calls [remove] of
    entity 0 to take out component 2 (which has no [destroy] for that
    [remove] to call). *)
Definition removingCollider : Entity.Hooks :=
  fun r k =>
    match r, k with
    | 1%nat, OnParentCollided =>
        Some (fun h => Entity.heap (Entity.remove plainColliders 0%nat (Some 2%nat) h))
    | _, _ => plainColliders r k
    end.

(** The scenario of the specification: at pause level 0 a first modal,
    owned by entity 5, starts; a second one, owned by entity 6, starts
    nested; the first is destroyed while the level is 2. *)
Definition ambient : Modal.World := Modal.mkWorld (Modal.Num 0) ∅ [].
Definition firstModal : Modal.t := Modal.attached 5%nat (Modal.create Modal.Undefined false).
Definition secondModal : Modal.t := Modal.attached 6%nat (Modal.create Modal.Undefined false).

(** * Part III: the properties *)

(** Opens the combinators of [Entity.Run], so that a computation shows as
    the triple it returns. *)
Ltac unfold_run :=
  unfold Entity.bind, Entity.ret, Entity.gets, Entity.modify, Entity.emit,
         Entity.result, Entity.heap, Entity.trace in *.

(** ** Numbers *)



(** ** The bounding box *)

Section BoundingBox.

Variable e : Entity.t.
Hypothesis no_box : Entity.boundingBox e = None.

Let s := effectiveScale e.
Let b := Entity.getBoundingBox e.
Let w := rwidth (Entity.dimension e).
Let h := rheight (Entity.dimension e).



End BoundingBox.




(** ** The collision query *)

Section Scan.

Variable this : Entity.t.
Variable box : Rectangle.
Variable callback : bool.

Let reported (array : list Entity.Value) : list Entity.Value :=
  List.filter (fun obj => negb (Entity.sameId this obj) && Entity.hitBy box obj) array.

(** Collecting all collisions: the accumulator grows by the reported
    candidates, and stays [null] when there is none. *)
Lemma scan_all (array : list Entity.Value) (collisions : option (list Entity.Value)) :
  fst (Entity.scan this box callback false array collisions) =
  match collisions, reported array with
  | None, [] => Entity.RNull
  | None, l => Entity.RArray l
  | Some acc, l => Entity.RArray (acc ++ l)
  end.
Proof.
  revert collisions. induction array as [|obj rest IH]; intros collisions.
  - simpl. destruct collisions as [acc|]; [|reflexivity].
    now rewrite app_nil_r.
  - subst reported. cbn [Entity.scan List.filter].
    destruct (Entity.sameId this obj); cbn [negb andb].
    + apply IH.
    + destruct (Entity.hitBy box obj).
      * specialize (IH (Some (match collisions with Some l => l | None => [] end ++ [obj]))).
        destruct (Entity.scan this box callback false rest _) as [r t].
        cbn [fst] in *. rewrite IH.
        destruct collisions as [acc|]; [|reflexivity].
        now rewrite <- app_assoc.
      * apply IH.
Qed.

(** A candidate that carries the id of [this], when that id is not 0, is
    passed over: the scan goes on as if it were not in the array. *)
Lemma scan_skips_same_id (e : Entity.t) (rest : list Entity.Value) firstOnly collisions :
  Entity.id e = Entity.id this -> Entity.id this <> 0%nat ->
  Entity.scan this box callback firstOnly (Entity.VEntity e :: rest) collisions =
  Entity.scan this box callback firstOnly rest collisions.
Proof.
  intros Hid Hnz. cbn [Entity.scan Entity.sameId]. rewrite Hid.
  rewrite Nat.eqb_refl. destruct (Nat.eqb_spec (Entity.id this) 0); [contradiction|].
  reflexivity.
Qed.

End Scan.

(** C1, as stated, fails: with [firstOnly] false, a candidate set that is
    not empty and holds nothing that intersects gives [null], not an
    empty collection. *)
Lemma collidesWith_no_hit_is_null :
  let this := square 1 0 0 10 in
  let far := square 2 100 100 10 in
  Entity.readQuery (enemies [far]) allEnemies
    = Entity.Scan [Entity.VEntity far] (mkVector2 0 0) false false /\
  Entity.hitBy (Rect.offset (Entity.getBoundingBox this) (mkVector2 0 0))
               (Entity.VEntity far) = false /\
  fst (Entity.collidesWith (enemies [far]) this allEnemies) = Entity.RNull /\
  fst (Entity.collidesWith (enemies [far]) this allEnemies) <> Entity.RArray [].
Proof.
  repeat split; try reflexivity. vm_compute. discriminate.
Qed.

(** The candidate array read from [settings.entities] is the one-element
    array that holds the list, not the list: whatever the entities in it,
    nothing is reported. *)
Lemma collidesWith_entities_list (objects : Entity.Registry) (this : Entity.t)
    (l : list Entity.t) offset firstOnly callback name family :
  Entity.collidesWith objects this
    (Entity.QSettings
       (Entity.mkSettings offset firstOnly callback None (Some (Entity.VArray l)) name family))
  = (Entity.RNull, []).
Proof.
  unfold Entity.collidesWith. cbn [Entity.readQuery Entity.s_entity Entity.s_entities].
  cbn [Entity.scan Entity.sameId Entity.hitBy]. reflexivity.
Qed.

(** C1, amended. With [firstOnly] false and the candidates not taken from
    [settings.entities]: the call returns [null] when the candidate set is
    empty and also when it holds no hit; when there are hits it returns
    the ordered sequence of all of them. *)
Theorem collidesWith_all (objects : Entity.Registry) (this : Entity.t)
    (s : Entity.Settings) (array : list Entity.Value) (offset : Vector2) (callback : bool) :
  Entity.s_entities s = None ->
  Entity.readQuery objects (Entity.QSettings s) = Entity.Scan array offset callback false ->
  fst (Entity.collidesWith objects this (Entity.QSettings s)) =
  match hits this offset array with
  | [] => Entity.RNull
  | l => Entity.RArray l
  end.
Proof.
  intros _ Hread. unfold Entity.collidesWith. rewrite Hread.
  destruct array as [|obj rest]; [reflexivity|].
  rewrite scan_all. reflexivity.
Qed.

Lemma collidesWith_all_witness :
  let this := square 1 0 0 10 in
  let near := square 2 5 5 10 in
  let far := square 3 100 100 10 in
  let over := square 4 (-5) (-5) 10 in
  fst (Entity.collidesWith (enemies [near; far; this; over]) this allEnemies) =
  Entity.RArray [Entity.VEntity near; Entity.VEntity over].
Proof.
  intros this near far over. unfold allEnemies.
  rewrite (collidesWith_all (enemies [near; far; this; over]) this
             (Entity.mkSettings None (Some false) false None None "" "enemies")
             (Entity.VEntity <$> [near; far; this; over]) (mkVector2 0 0) false
             eq_refl eq_refl).
  reflexivity.
Defined.

(** C6. The first entity made has id 0; queried against itself it is not
    passed over but reported as a hit. *)
Theorem collidesWith_reports_self_with_id_0 :
  let first := square 0 0 0 10 in
  Entity.sameId first (Entity.VEntity first) = false /\
  Entity.collidesWith (enemies []) first (Entity.QEntity first None true) =
  (Entity.RObject (Entity.VEntity first), [Entity.Callback (Entity.VEntity first)]).
Proof.
  split; reflexivity.
Qed.

(** With any other id the entity is passed over: alone in the candidate
    set it gives [null], and the callback is not called. *)
Lemma collidesWith_skips_self (objects : Entity.Registry) (this : Entity.t) offset callback :
  Entity.id this <> 0%nat ->
  Entity.collidesWith objects this (Entity.QEntity this offset callback) = (Entity.RNull, []).
Proof.
  intros Hnz. unfold Entity.collidesWith. cbn [Entity.readQuery].
  rewrite scan_skips_same_id by (reflexivity || assumption). reflexivity.
Qed.

(** ** Attaching *)

Section Attach.

Variable hook : Entity.Hooks.

Lemma replay_app (t1 t2 : list Event) (h : Entity.Heap) :
  replay hook (t1 ++ t2) h = replay hook t2 (replay hook t1 h).
Proof.
  revert h. induction t1 as [|ev t1 IH]; intros h; [reflexivity|].
  destruct ev; simpl; apply IH.
Qed.

Lemma callHook_spec (r : Ref) (k : HookName) (h : Entity.Heap) :
  Entity.trace (Entity.callHook hook r k h) = callOf hook r k /\
  Entity.heap (Entity.callHook hook r k h) = replay hook (callOf hook r k) h.
Proof.
  unfold Entity.callHook, callOf, Entity.trace, Entity.heap.
  destruct (hook r k) as [f|] eqn:E; simpl; [rewrite E|]; split; reflexivity.
Qed.

(** The ancestor loop only ever calls [child.start]: once for each
    scheduler-live entity it passes. *)
Lemma startUnderAncestors_spec (fuel : nat) (child : Ref) (p : option Ref) (h : Entity.Heap) :
  let r := Entity.startUnderAncestors hook fuel child p h in
  Entity.heap r = replay hook (Entity.trace r) h /\
  exists n, Entity.trace r = concat (replicate n (callOf hook child Start)).
Proof.
  revert p h. induction fuel as [|fuel IH]; intros p h.
  - destruct p; simpl; (split; [reflexivity | exists 0%nat; reflexivity]).
  - destruct p as [p|]; [|simpl; split; [reflexivity | exists 0%nat; reflexivity]].
    cbn [Entity.startUnderAncestors]. unfold_run.
    destruct (Entity.isAdded (h !!! p)).
    + destruct (callHook_spec child Start h) as [Ht Hh].
      destruct (Entity.callHook hook child Start h) as [[[] h1] t1].
      unfold Entity.trace, Entity.heap in Ht, Hh. cbn [fst snd] in Ht, Hh.
      specialize (IH (Entity.parent (h1 !!! p)) h1). cbv zeta in IH.
      destruct (Entity.startUnderAncestors hook fuel child _ h1) as [[b h2] t2].
      unfold Entity.trace, Entity.heap in IH. cbn [fst snd] in IH |- *.
      destruct IH as [IHh [n IHt]]. split.
      * cbn [app]. rewrite replay_app, Ht, <- Hh. exact IHh.
      * exists (S n). cbn [app]. rewrite Ht, IHt. reflexivity.
    + specialize (IH (Entity.parent (h !!! p)) h). cbv zeta in IH.
      destruct (Entity.startUnderAncestors hook fuel child _ h) as [[b h2] t2].
      unfold Entity.trace, Entity.heap in IH. cbn [fst snd] in IH |- *.
      destruct IH as [IHh [n IHt]]. split.
      * cbn [app]. exact IHh.
      * exists n. cbn [app]. exact IHt.
Qed.

Lemma linked_parent (this child : Ref) (h : Entity.Heap) :
  Entity.parent (linked this child h !!! child) = Some this.
Proof.
  unfold linked. rewrite lookup_total_insert_eq. reflexivity.
Qed.

Lemma linked_components (this child : Ref) (h : Entity.Heap) :
  Entity.components (linked this child h !!! this) =
  Entity.components (h !!! this) ++ [Some child].
Proof.
  unfold linked. destruct (decide (child = this)) as [->|Hne].
  - rewrite !lookup_total_insert_eq. reflexivity.
  - rewrite lookup_total_insert_ne by exact Hne.
    rewrite lookup_total_insert_eq. reflexivity.
Qed.

(** Once past the guard, [attach] links the child and then only calls
    hooks of the child: [init], [attached], and [start] some number of
    times. *)
Lemma attach_proceeds (fuel : nat) (this child : Ref) (force : bool) (h : Entity.Heap) :
  negb force && (Entity.isAdded (h !!! child)
                 || bool_decide (is_Some (Entity.parent (h !!! child)))) = false ->
  let r := Entity.attach hook fuel this child force h in
  Entity.heap r = replay hook (Entity.trace r) (linked this child h) /\
  exists n, Entity.trace r =
            callOf hook child Init ++ callOf hook child Attached
            ++ concat (replicate n (callOf hook child Start)).
Proof.
  intros Hguard. unfold Entity.attach. unfold_run. rewrite Hguard.
  fold (linked this child h). set (h0 := linked this child h).
  destruct (callHook_spec child Init h0) as [Ht1 Hh1].
  destruct (Entity.callHook hook child Init h0) as [[[] h1] t1].
  unfold Entity.trace, Entity.heap in Ht1, Hh1. cbn [fst snd] in Ht1, Hh1.
  destruct (callHook_spec child Attached h1) as [Ht2 Hh2].
  destruct (Entity.callHook hook child Attached h1) as [[[] h2] t2].
  unfold Entity.trace, Entity.heap in Ht2, Hh2. cbn [fst snd] in Ht2, Hh2.
  destruct (Entity.isAdded (h2 !!! this)).
  - destruct (callHook_spec child Start h2) as [Ht3 Hh3].
    destruct (Entity.callHook hook child Start h2) as [[[] h3] t3].
    unfold Entity.trace, Entity.heap in Ht3, Hh3. cbn [fst snd] in Ht3, Hh3 |- *.
    split.
    + cbn [app]. rewrite ?app_nil_r, !replay_app.
      rewrite Ht1, Ht2, Ht3, <- Hh1, <- Hh2, <- Hh3. reflexivity.
    + exists 1%nat. cbn [app replicate concat]. rewrite ?app_nil_r, Ht1, Ht2, Ht3. reflexivity.
  - match goal with
    | |- context [Entity.startUnderAncestors hook fuel child ?p h2] =>
        destruct (startUnderAncestors_spec fuel child p h2) as [Hh3 [n Ht3]];
        destruct (Entity.startUnderAncestors hook fuel child p h2) as [[b h3] t3]
    end.
    unfold Entity.trace, Entity.heap in Ht3, Hh3. cbn [fst snd] in Ht3, Hh3 |- *.
    split.
    + cbn [app]. rewrite ?app_nil_r, !replay_app.
      rewrite Ht1, Ht2, <- Hh1, <- Hh2. exact Hh3.
    + exists n. cbn [app]. rewrite ?app_nil_r, Ht1, Ht2, Ht3. reflexivity.
Qed.

End Attach.

(** C4. A child that already has a parent, or is scheduler-live, is not
    attached without [force]: the error is logged, the store is left as it
    was and no hook is called.  With [force] the attach goes ahead: the
    child is appended to the components, gets its parent, and its [init],
    [attached] and [start] hooks run on that store. *)
Theorem attach_attached_child (hook : Entity.Hooks)
    (fuel : nat) (this child : Ref) (h : Entity.Heap) :
  Entity.isAdded (h !!! child) = true \/ is_Some (Entity.parent (h !!! child)) ->
  Entity.attach hook fuel this child false h =
    (Some Entity.RetUndefined, h,
     [Log (Entity.alreadyAttached (Entity.name (h !!! child)))]) /\
  (let r := Entity.attach hook fuel this child true h in
   Entity.components (linked this child h !!! this)
     = Entity.components (h !!! this) ++ [Some child] /\
   Entity.parent (linked this child h !!! child) = Some this /\
   Entity.heap r = replay hook (Entity.trace r) (linked this child h) /\
   exists n, Entity.trace r =
             callOf hook child Init ++ callOf hook child Attached
             ++ concat (replicate n (callOf hook child Start))).
Proof.
  intros Hattached. split.
  - unfold Entity.attach. unfold_run.
    assert (Entity.isAdded (h !!! child)
            || bool_decide (is_Some (Entity.parent (h !!! child))) = true) as ->.
    { destruct Hattached as [-> | Hp]; [reflexivity|].
      rewrite (bool_decide_eq_true_2 _ Hp). apply orb_true_r. }
    reflexivity.
  - cbv zeta. split; [apply linked_components|]. split; [apply linked_parent|].
    apply (attach_proceeds hook fuel this child true h). reflexivity.
Qed.

Lemma attach_attached_child_witness :
  Entity.attach idleHooks 4 2%nat 1%nat false owned =
    (Some Entity.RetUndefined, owned, [Log "ERROR: Child kid was already attached."]) /\
  Entity.trace (Entity.attach idleHooks 4 2%nat 1%nat true owned) =
    [Call 1%nat Init; Call 1%nat Attached].
Proof.
  assert (Entity.isAdded (owned !!! 1%nat) = true \/
          is_Some (Entity.parent (owned !!! 1%nat))) as Hattached.
  { right. exists 0%nat. reflexivity. }
  destruct (attach_attached_child idleHooks 4 2%nat 1%nat owned Hattached) as [Hrefused _].
  split; [exact Hrefused | reflexivity].
Defined.

(** ** Starting a child that is attached under a live tree *)

(** C2. With two scheduler-live entities above the (not live) entity that
    the child is attached to, the one call of [attach] calls [child.start]
    twice. *)
Theorem attach_starts_child_twice :
  let r := Entity.attach startOf3 8 2%nat 3%nat false liveChain in
  Entity.result r = Some (Entity.RetThis 2%nat) /\
  Entity.trace r = [Call 3%nat Start; Call 3%nat Start] /\
  length (List.filter (fun ev => bool_decide (ev = Call 3%nat Start)) (Entity.trace r)) = 2%nat.
Proof.
  vm_compute. repeat split; reflexivity.
Qed.

(** When the entity attached to is itself live, the ancestors are not
    looked at and [child.start] is called once. *)
Lemma attach_starts_child_once_when_live
    (hook : Entity.Hooks)
    (fuel : nat) (this child : Ref) (h : Entity.Heap) :
  hook child Init = None -> hook child Attached = None ->
  Entity.isAdded (h !!! child) = false -> Entity.parent (h !!! child) = None ->
  Entity.isAdded (linked this child h !!! this) = true ->
  Entity.trace (Entity.attach hook fuel this child false h) = callOf hook child Start.
Proof.
  intros Hinit Hatt Hadded Hparent Hlive.
  unfold Entity.attach. unfold_run. rewrite Hadded, Hparent. cbn [negb orb andb].
  rewrite bool_decide_eq_false_2 by (intros [? ?]; discriminate).
  fold (linked this child h). unfold Entity.callHook. rewrite Hinit, Hatt.
  rewrite Hlive. unfold callOf. destruct (hook child Start); reflexivity.
Qed.

(** ** The component loops *)

Lemma live_app (cs1 cs2 : list (option Ref)) : live (cs1 ++ cs2) = live cs1 ++ live cs2.
Proof. unfold live. apply omap_app. Qed.


Section Loops.

Variable hook : Entity.Hooks.
Variable k : HookName.
Variable this : Ref.
Hypothesis keeps : keepsComponents hook k this.

Let calls_of (cs : list (option Ref)) : list Event :=
  map (fun c => Call c k) (having hook k (live cs)).

Lemma having_app (rs1 rs2 : list Ref) :
  having hook k (rs1 ++ rs2) = having hook k rs1 ++ having hook k rs2.
Proof. unfold having. apply List.filter_app. Qed.

(** One turn of a loop at index [i]: the hook of the component in slot
    [i] is called when the slot is live and the component has the hook;
    the component list stays as it is. *)
Lemma dispatch_spec (i : nat) (h : Entity.Heap) :
  let r := Entity.dispatch hook this k i h in
  Entity.components (Entity.heap r !!! this) = Entity.components (h !!! this) /\
  Entity.trace r =
    match Entity.components (h !!! this) !! i with
    | Some slot => calls_of [slot]
    | None => []
    end.
Proof.
  unfold Entity.dispatch. unfold_run. subst calls_of. cbv beta.
  destruct (Entity.components (h !!! this) !! i) as [[c|]|]; cbn;
    try (split; reflexivity).
  unfold Entity.callHook, having. cbn [List.filter].
  destruct (hook c k) as [f|] eqn:E; cbn.
  - split; [apply (keeps c f E) | reflexivity].
  - split; reflexivity.
Qed.

(** The forward loop over [n] slots from [from] on. *)
Lemma forUp_spec (n from : nat) (h : Entity.Heap) :
  let r := Entity.forUp (Entity.dispatch hook this k) from n h in
  Entity.components (Entity.heap r !!! this) = Entity.components (h !!! this) /\
  Entity.trace r = calls_of (take n (drop from (Entity.components (h !!! this)))).
Proof.
  revert from h. induction n as [|n IH]; intros from h.
  - cbn. split; [reflexivity|]. rewrite take_0. reflexivity.
  - cbn [Entity.forUp]. unfold Entity.bind.
    destruct (dispatch_spec from h) as [Hc Ht].
    destruct (Entity.dispatch hook this k from h) as [[[] h1] t1].
    unfold Entity.trace, Entity.heap in Hc, Ht. cbn [fst snd] in Hc, Ht.
    specialize (IH (S from) h1). cbv zeta in IH.
    destruct (Entity.forUp _ (S from) n h1) as [[[] h2] t2].
    unfold Entity.trace, Entity.heap in IH |- *. cbn [fst snd] in IH |- *.
    destruct IH as [IHc IHt]. rewrite Hc in IHc, IHt. split; [exact IHc|].
    rewrite Ht, IHt. subst calls_of. cbv beta.
    destruct (Entity.components (h !!! this) !! from) as [slot|] eqn:E.
    + rewrite (drop_S _ _ _ E). cbn [take].
      change (slot :: take n (drop (S from) (Entity.components (h !!! this))))
        with ([slot] ++ take n (drop (S from) (Entity.components (h !!! this)))).
      rewrite live_app, having_app, map_app. reflexivity.
    + apply lookup_ge_None in E.
      rewrite !drop_ge by lia. rewrite !take_nil. reflexivity.
Qed.

(** The backward loop from slot [n - 1] down to slot 0. *)
Lemma forDown_spec (n : nat) (h : Entity.Heap) :
  let r := Entity.forDown (Entity.dispatch hook this k) n h in
  Entity.components (Entity.heap r !!! this) = Entity.components (h !!! this) /\
  Entity.trace r =
    map (fun c => Call c k) (rev (having hook k (live (take n (Entity.components (h !!! this)))))).
Proof.
  revert h. induction n as [|n IH]; intros h.
  - cbn. split; [reflexivity|]. rewrite take_0. reflexivity.
  - cbn [Entity.forDown]. unfold Entity.bind.
    destruct (dispatch_spec n h) as [Hc Ht].
    destruct (Entity.dispatch hook this k n h) as [[[] h1] t1].
    unfold Entity.trace, Entity.heap in Hc, Ht. cbn [fst snd] in Hc, Ht.
    specialize (IH h1). cbv zeta in IH.
    destruct (Entity.forDown _ n h1) as [[[] h2] t2].
    unfold Entity.trace, Entity.heap in IH |- *. cbn [fst snd] in IH |- *.
    destruct IH as [IHc IHt]. rewrite Hc in IHc, IHt. split; [exact IHc|].
    rewrite Ht, IHt. subst calls_of. cbv beta.
    destruct (Entity.components (h !!! this) !! n) as [slot|] eqn:E.
    + rewrite (take_S_r _ _ _ E).
      rewrite live_app, having_app, rev_app_distr, map_app.
      destruct slot as [c|]; cbn; [|reflexivity].
      destruct (bool_decide (is_Some (hook c k))); reflexivity.
    + apply lookup_ge_None in E.
      rewrite !take_ge by lia. reflexivity.
Qed.

End Loops.

(** ** Drawing *)

(** C5, as stated, fails: a component attached by a [draw] hook during the
    pass gets [postDraw], first of all, though the draw order fixed at the
    start of the pass does not hold it and its [draw] was not called. *)
Lemma draw_postDraw_not_reverse_of_draw :
  Entity.visible (canvasOwner !!! 0%nat) = true /\
  drawPass attachingPainter 0%nat (Entity.components (canvasOwner !!! 0%nat)) =
    [TransformDraw 0%nat; Call 1%nat Draw; Call 1%nat PostDraw; TransformPostDraw 0%nat] /\
  Entity.trace (Entity.draw attachingPainter 0%nat canvasOwner) =
    [TransformDraw 0%nat; Call 1%nat Draw;
     Call 2%nat PostDraw; Call 1%nat PostDraw; TransformPostDraw 0%nat] /\
  Entity.trace (Entity.draw attachingPainter 0%nat canvasOwner) <>
    drawPass attachingPainter 0%nat (Entity.components (canvasOwner !!! 0%nat)).
Proof.
  repeat split; try reflexivity. vm_compute. discriminate.
Qed.

(** C5, amended. An entity that is not visible draws nothing: no hook is
    called, no transform pushed, the store is untouched.  A visible entity
    whose [draw] and [postDraw] hooks leave its component list alone
    pushes the transform, calls [draw] on its live components in list
    order, then [postDraw] on them in the reverse order, then pops the
    transform. *)
Theorem draw_pass (hook : Entity.Hooks)
    (this : Ref) (h : Entity.Heap) :
  (Entity.visible (h !!! this) = false -> Entity.draw hook this h = (tt, h, [])) /\
  (Entity.visible (h !!! this) = true ->
   keepsComponents hook Draw this -> keepsComponents hook PostDraw this ->
   Entity.trace (Entity.draw hook this h) =
   drawPass hook this (Entity.components (h !!! this))).
Proof.
  split.
  - intros Hvis. unfold Entity.draw. unfold_run. rewrite Hvis. reflexivity.
  - intros Hvis Hdraw Hpost. unfold Entity.draw. unfold_run. rewrite Hvis. cbn [negb].
    destruct (forUp_spec hook Draw this Hdraw
                (length (Entity.components (h !!! this))) 0 h) as [Hc1 Ht1].
    destruct (Entity.forUp _ 0 _ h) as [[[] h1] t1].
    unfold Entity.trace, Entity.heap in Hc1, Ht1. cbn [fst snd] in Hc1, Ht1.
    destruct (forDown_spec hook PostDraw this Hpost
                (length (Entity.components (h1 !!! this))) h1) as [Hc2 Ht2].
    destruct (Entity.forDown _ _ h1) as [[[] h2] t2].
    unfold Entity.trace, Entity.heap in Hc2, Ht2. cbn [fst snd] in Hc2, Ht2 |- *.
    rewrite Ht1, Ht2, Hc1. rewrite drop_0, !firstn_all.
    unfold drawPass. cbn [app]. rewrite ?app_nil_r. reflexivity.
Qed.

Lemma idleHooks_keep (k : HookName) (this : Ref) : keepsComponents idleHooks k this.
Proof. intros c f [= <-] h. reflexivity. Qed.

Lemma draw_pass_witness :
  Entity.trace (Entity.draw idleHooks 0%nat twoPainters) =
  [TransformDraw 0%nat; Call 1%nat Draw; Call 2%nat Draw;
   Call 2%nat PostDraw; Call 1%nat PostDraw; TransformPostDraw 0%nat].
Proof.
  destruct (draw_pass idleHooks 0%nat twoPainters) as [_ Hvisible].
  rewrite Hvisible.
  - reflexivity.
  - reflexivity.
  - apply idleHooks_keep.
  - apply idleHooks_keep.
Defined.

(** ** The collision protocol *)

(** C8, as stated, fails: a component that an [onParentCollided] hook of
    an earlier component removes during the pass is live when [collided]
    is called and has the hook, but it is not called. *)
Lemma collided_skips_removed_component :
  live (Entity.components (twoPainters !!! 0%nat)) = [1%nat; 2%nat] /\
  is_Some (removingCollider 2%nat OnParentCollided) /\
  Entity.trace (Entity.collided removingCollider 0%nat (Some tt) twoPainters) =
    [Call 1%nat OnParentCollided] /\
  Entity.trace (Entity.collided removingCollider 0%nat (Some tt) twoPainters) <>
    map (fun c => Call c OnParentCollided)
        (having removingCollider OnParentCollided
                (live (Entity.components (twoPainters !!! 0%nat))))
    ++ callOf removingCollider 0%nat OnCollide.
Proof.
  repeat split; try reflexivity; [eexists; reflexivity|]. vm_compute. discriminate.
Qed.



(** ** The modal component *)

Lemma strictNe_Num (a : Modal.JsNum) (z : Z) :
  Modal.strictNe a (Modal.Num z) = false <-> a = Modal.Num z.
Proof.
  destruct a as [| |x]; cbn; try (split; discriminate).
  rewrite negb_false_iff, Z.eqb_eq. split; congruence.
Qed.

(** Started at a numeric pause level, the component sets a numeric level. *)
Lemma start_sets_number (m : Modal.t) (w : Modal.World) (g0 : Z) :
  Modal.isPaused w = Modal.Num g0 ->
  let m1 := fst (fst (Modal.start m w)) in
  let w1 := snd (fst (Modal.start m w)) in
  Modal.oldPauseLevel m1 = Modal.Num g0 /\
  Modal.isPaused w1 = Modal.component_pauseLevel m1 /\
  exists z, Modal.component_pauseLevel m1 = Modal.Num z.
Proof.
  intros Hlevel. unfold Modal.start. rewrite Hlevel.
  set (target := if Modal.lt (Modal.pauseLevel m) (Modal.Num g0)
                 then Modal.succ (Modal.Num g0) else Modal.pauseLevel m).
  assert (exists z, (if Modal.truthy target then target else Modal.succ (Modal.Num g0))
                    = Modal.Num z) as [z Hz].
  { destruct target as [| |x]; cbn; eauto. destruct (negb (x =? 0)%Z); eauto. }
  cbv zeta. cbn [Modal.entity]. rewrite Hz. destruct (Modal.entity m); cbn; eauto.
Qed.

(** C7. After a start at pause level [g0], [destroy] puts the level back
    to [g0] when the level still is the one the component set, and leaves
    everything as it is when the level is another one. *)
Theorem modal_destroy (m : Modal.t) (w : Modal.World) (g0 : Z) :
  Modal.isPaused w = Modal.Num g0 ->
  let m1 := fst (fst (Modal.start m w)) in
  let w1 := snd (fst (Modal.start m w)) in
  Modal.isPaused w1 = Modal.component_pauseLevel m1 /\
  forall w2 : Modal.World,
    (Modal.isPaused w2 = Modal.component_pauseLevel m1 ->
     Modal.destroy m1 w2 = Modal.pause (Modal.Num g0) w2 /\
     Modal.isPaused (Modal.destroy m1 w2) = Modal.Num g0) /\
    (Modal.isPaused w2 <> Modal.component_pauseLevel m1 ->
     Modal.destroy m1 w2 = w2).
Proof.
  intros Hlevel m1 w1.
  destruct (start_sets_number m w g0 Hlevel) as [Hold [Hset [z Hz]]].
  fold m1 w1 in Hold, Hset, Hz. split; [exact Hset|].
  intros w2. unfold Modal.destroy. rewrite Hz, Hold. split.
  - intros Hsame. apply strictNe_Num in Hsame. rewrite Hsame. split; reflexivity.
  - intros Hother. destruct (Modal.strictNe (Modal.isPaused w2) (Modal.Num z)) eqn:E;
      [reflexivity|]. apply strictNe_Num in E. contradiction.
Qed.

Lemma modal_destroy_witness :
  let m1 := fst (fst (Modal.start firstModal ambient)) in
  let w1 := snd (fst (Modal.start firstModal ambient)) in
  let w2 := snd (fst (Modal.start secondModal w1)) in
  Modal.level w1 = Modal.Num 1 /\
  Modal.updateWhenPaused w1 !! 5%nat = Some (Modal.Num 1) /\
  Modal.level w2 = Modal.Num 2 /\
  Modal.destroy m1 w2 = w2 /\
  Modal.level (Modal.destroy m1 w1) = Modal.Num 0.
Proof.
  intros m1 w1 w2.
  destruct (modal_destroy firstModal ambient 0 eq_refl) as [_ Hdestroy].
  split; [reflexivity|]. split; [reflexivity|]. split; [reflexivity|]. split.
  - apply (Hdestroy w2). discriminate.
  - apply (Hdestroy w1). reflexivity.
Defined.

(** ** The renderers *)

(** C9. On the canvas2d renderer [fillRect] and [strokeRect] leave the
    opacity as it was, whatever the alpha of the color. *)
Theorem canvas2d_rect_keeps_opacity (r : Canvas2d.t) (colorArray : Color) (x y w h : Q) :
  Canvas2d.getOpacity (Canvas2d.fillRect colorArray x y w h r) = Canvas2d.getOpacity r /\
  Canvas2d.getOpacity (Canvas2d.strokeRect colorArray x y w h r) = Canvas2d.getOpacity r.
Proof.
  unfold Canvas2d.getOpacity, Canvas2d.fillRect, Canvas2d.strokeRect.
  destruct (Canvas2d.notOpaque colorArray);
    unfold Canvas2d.onContext; cbn;
    rewrite ?lookup_total_insert_eq; cbn; split; reflexivity.
Qed.

Lemma call_original (r : Renderer) (c : RendererCall) : originalOf (call r c) = originalOf r.
Proof.
  destruct r as [r|r], c; cbn [call originalOf];
    unfold WebGl.fillRect, WebGl.strokeRect, WebGl.setOpacity, WebGl.setColor,
           WebGl.onRenderer, Canvas2d.fillRect, Canvas2d.strokeRect,
           Canvas2d.setOpacity, Canvas2d.onContext;
    try destruct (Canvas2d.notOpaque color); reflexivity.
Qed.

Lemma calls_original (cs : list RendererCall) (r : Renderer) :
  originalOf (calls cs r) = originalOf r.
Proof.
  revert r. induction cs as [|c cs IH]; intros r; [reflexivity|].
  unfold calls in *. cbn [fold_left]. rewrite IH. apply call_original.
Qed.

Lemma restoreContext_active (r : Renderer) : activeContext (restoreContext r) = originalOf r.
Proof. destruct r; reflexivity. Qed.

(** C10. Whichever back end the setup hands back and whatever calls were
    made since, among them any number of [setContext], one
    [restoreContext] makes the drawing target the one captured when the
    renderer was made; so after two nested [setContext] it is that one,
    not the target set first. *)
Theorem restoreContext_is_not_a_stack (canWebGl glSprites : bool)
    (fresh : Ref) (renderers : gmap Ref WebGl.Sprites)
    (canvas : Ref) (contexts : gmap Ref Canvas2d.Context) :
  let made := webglModule canWebGl glSprites fresh renderers canvas contexts in
  let made2d := OfCanvas2d (Canvas2d.create canvas contexts) in
  activeContext made = (if canWebGl && glSprites then fresh else canvas) /\
  activeContext made2d = canvas /\
  (forall cs, activeContext (restoreContext (calls cs made)) = activeContext made) /\
  (forall cs, activeContext (restoreContext (calls cs made2d)) = activeContext made2d) /\
  (forall a b, activeContext (restoreContext (setContext b (setContext a made)))
               = activeContext made) /\
  (forall a b, activeContext (restoreContext (setContext b (setContext a made2d)))
               = activeContext made2d).
Proof.
  intros made made2d.
  assert (originalOf made = activeContext made) as Hmade.
  { subst made. unfold webglModule. destruct (canWebGl && glSprites); reflexivity. }
  repeat split.
  - subst made. unfold webglModule. destruct (canWebGl && glSprites); reflexivity.
  - intros cs. rewrite restoreContext_active, calls_original. exact Hmade.
  - intros cs. rewrite restoreContext_active, calls_original. reflexivity.
  - intros a b.
    change (setContext b (setContext a made)) with (calls [CSetContext a; CSetContext b] made).
    rewrite restoreContext_active, calls_original. exact Hmade.
Qed.

(** * Part IV: further properties of the code *)

(** ** Compaction and the update pass *)

Lemma live_fmap_Some (rs : list Ref) : live (Some <$> rs) = rs.
Proof.
  unfold live. induction rs as [|r rs IH]; [reflexivity|].
  cbn. rewrite IH. reflexivity.
Qed.

Lemma take_delete_here {A} (n : nat) (l : list A) :
  (n < length l)%nat -> take n (delete n l) = take n l.
Proof.
  intros Hn. rewrite delete_take_drop.
  apply take_app_length'. rewrite length_take_le by lia. reflexivity.
Qed.

Lemma drop_delete_here {A} (n : nat) (l : list A) :
  (n < length l)%nat -> drop n (delete n l) = drop (S n) l.
Proof.
  intros Hn. rewrite delete_take_drop.
  apply drop_app_length'. rewrite length_take_le by lia. reflexivity.
Qed.

(** The backward loop of [cleanComponents] over the first [n] slots. *)
Lemma cleanFrom_spec (n : nat) (cs : list (option Ref)) :
  Entity.cleanFrom n cs = (Some <$> live (take n cs)) ++ drop n cs.
Proof.
  revert cs. induction n as [|n IH]; intros cs.
  - cbn. rewrite take_0, drop_0. reflexivity.
  - cbn [Entity.cleanFrom]. destruct (cs !! n) as [slot|] eqn:E.
    + rewrite (take_S_r _ _ _ E), live_app, fmap_app, <- app_assoc.
      destruct slot as [c|].
      * rewrite IH. cbn. rewrite (drop_S _ _ _ E). reflexivity.
      * apply lookup_lt_Some in E. rewrite IH.
        rewrite take_delete_here, drop_delete_here by exact E.
        cbn. reflexivity.
    + apply lookup_ge_None in E. rewrite IH.
      assert (delete n cs = cs) as ->.
      { rewrite delete_take_drop, take_ge, drop_ge by lia. apply app_nil_r. }
      rewrite !take_ge, !drop_ge by lia. reflexivity.
Qed.

Lemma cleanComponents_live (e : Entity.t) :
  Entity.components (Entity.cleanComponents e) = Some <$> live (Entity.components e).
Proof.
  unfold Entity.cleanComponents. cbn.
  rewrite cleanFrom_spec, firstn_all, drop_all, app_nil_r. reflexivity.
Qed.

(** X1. [cleanComponents] takes out exactly the nulled slots: what is left
    are the live components, in their order, and nothing else of the
    entity changes. *)
Theorem cleanComponents_compacts (e : Entity.t) :
  Entity.components (Entity.cleanComponents e) = Some <$> live (Entity.components e) /\
  Entity.with_components (Entity.components e) (Entity.cleanComponents e) = e /\
  Entity.cleanComponents (Entity.cleanComponents e) = Entity.cleanComponents e.
Proof.
  destruct e as [i nm ad vis pos ori dim sc bb cs par].
  unfold Entity.cleanComponents, Entity.with_components. cbn.
  repeat rewrite ?cleanFrom_spec, ?firstn_all, ?drop_all, ?app_nil_r, ?live_fmap_Some.
  repeat split; reflexivity.
Qed.

(** The update pass when the [update] hooks leave the list alone. *)
Lemma update_stable (hook : Entity.Hooks) (this : Ref) (speed timer : Q) (h : Entity.Heap) :
  keepsComponents hook Update this ->
  let r := Entity.update hook this speed timer h in
  Entity.trace r =
    map (fun c => Call c Update) (having hook Update (live (Entity.components (h !!! this)))) /\
  Entity.components (Entity.heap r !!! this) = Some <$> live (Entity.components (h !!! this)).
Proof.
  intros Hkeeps. unfold Entity.update. unfold_run. cbv zeta.
  destruct (forUp_spec hook Update this Hkeeps
              (length (Entity.components (h !!! this))) 0 h) as [Hc Ht].
  destruct (Entity.forUp _ 0 _ h) as [[[] h1] t1].
  unfold Entity.trace, Entity.heap in Hc, Ht. cbn [fst snd] in Hc, Ht |- *.
  rewrite lookup_total_insert_eq, cleanComponents_live, Hc, Ht, drop_0, firstn_all.
  cbn [app]. rewrite ?app_nil_r. split; reflexivity.
Qed.



(** X3. [start], [destroy] and [attached] of an entity pass the call on:
    to the [start], [destroy], respectively [onParentAttached] hook of
    its live components, in list order, when those hooks leave the
    component list alone. *)
Theorem lifecycle_dispatch (hook : Entity.Hooks) (this : Ref) (h : Entity.Heap) :
  (keepsComponents hook Start this ->
   Entity.trace (Entity.start hook this h) =
   map (fun c => Call c Start) (having hook Start (live (Entity.components (h !!! this))))) /\
  (keepsComponents hook Destroy this ->
   Entity.trace (Entity.destroy hook this h) =
   map (fun c => Call c Destroy) (having hook Destroy (live (Entity.components (h !!! this))))) /\
  (keepsComponents hook OnParentAttached this ->
   Entity.trace (Entity.attached hook this h) =
   map (fun c => Call c OnParentAttached)
       (having hook OnParentAttached (live (Entity.components (h !!! this))))).
Proof.
  repeat split; intros Hkeeps;
    unfold Entity.start, Entity.destroy, Entity.attached; unfold_run;
    match goal with
    | |- context [Entity.forUp (Entity.dispatch hook this ?k) 0 ?n h] =>
        destruct (forUp_spec hook k this Hkeeps n 0 h) as [_ Ht];
        destruct (Entity.forUp (Entity.dispatch hook this k) 0 n h) as [[[] h1] t1]
    end;
    unfold Entity.trace in Ht; cbn [fst snd] in Ht |- *;
    rewrite Ht, drop_0, firstn_all; reflexivity.
Qed.

Lemma lifecycle_dispatch_witness :
  Entity.trace (Entity.start idleHooks 0%nat twoPainters) = [Call 1%nat Start; Call 2%nat Start] /\
  Entity.trace (Entity.destroy idleHooks 0%nat twoPainters)
    = [Call 1%nat Destroy; Call 2%nat Destroy] /\
  Entity.trace (Entity.attached idleHooks 0%nat twoPainters)
    = [Call 1%nat OnParentAttached; Call 2%nat OnParentAttached].
Proof.
  destruct (lifecycle_dispatch idleHooks 0%nat twoPainters) as [Hs [Hd Ha]].
  rewrite (Hs (idleHooks_keep Start 0%nat)), (Hd (idleHooks_keep Destroy 0%nat)),
          (Ha (idleHooks_keep OnParentAttached 0%nat)).
  repeat split; reflexivity.
Defined.

(** ** Removing *)

Lemma indexOf_Some (child : Ref) (cs : list (option Ref)) (i : nat) :
  Entity.indexOf child cs = Some i <->
  cs !! i = Some (Some child) /\
  forall j, (j < i)%nat -> cs !! j <> Some (Some child).
Proof.
  unfold Entity.indexOf. split.
  - intros H. destruct (list_find _ cs) as [[i' slot]|] eqn:E; [|discriminate].
    cbn in H. injection H as ->. apply list_find_Some in E as [Hi [-> Hfirst]].
    split; [exact Hi|]. intros j Hj Hslot. exact (Hfirst j _ Hslot Hj eq_refl).
  - intros [Hi Hfirst].
    assert (list_find (fun slot => slot = Some child) cs = Some (i, Some child)) as ->.
    { apply list_find_Some. split; [exact Hi|]. split; [reflexivity|].
      intros j y Hy Hj ->. exact (Hfirst j Hj Hy). }
    reflexivity.
Qed.

Lemma indexOf_None (child : Ref) (cs : list (option Ref)) :
  Entity.indexOf child cs = None <-> Some child ∉ cs.
Proof.
  unfold Entity.indexOf. rewrite fmap_None, list_find_None, Forall_forall.
  split.
  - intros H Hin. exact (H _ Hin eq_refl).
  - intros H slot Hin ->. exact (H Hin).
Qed.

(** X4. [remove] of nothing, or of a child that is not among the
    components, changes nothing and calls nothing; the first returns
    [undefined], the second the entity. *)
Theorem remove_absent (hook : Entity.Hooks) (this : Ref) (h : Entity.Heap) :
  Entity.remove hook this None h = (Entity.RetUndefined, h, []) /\
  (forall child, Some child ∉ Entity.components (h !!! this) ->
   Entity.remove hook this (Some child) h = (Entity.RetThis this, h, [])).
Proof.
  split; [reflexivity|]. intros child Habsent.
  unfold Entity.remove. unfold_run.
  apply indexOf_None in Habsent. rewrite Habsent. reflexivity.
Qed.

Lemma remove_absent_witness :
  Entity.remove idleHooks 0%nat (Some 2%nat) owned = (Entity.RetThis 0%nat, owned, []).
Proof.
  apply (remove_absent idleHooks 0%nat owned).
  intros Hin. apply list_elem_of_In in Hin. cbn in Hin.
  destruct Hin as [Hin|[]]. discriminate Hin.
Defined.

(** The component list after a [remove] whose [destroy] leaves it alone. *)
Lemma remove_stable (hook : Entity.Hooks) (this child : Ref) (i : nat) (h : Entity.Heap) :
  Entity.indexOf child (Entity.components (h !!! this)) = Some i ->
  keepsComponents hook Destroy this ->
  Entity.components (Entity.heap (Entity.remove hook this (Some child) h) !!! this)
  = <[i := None]> (Entity.components (h !!! this)).
Proof.
  intros Hindex Hkeeps. unfold Entity.remove. unfold_run. rewrite Hindex.
  assert (forall h1 : Entity.Heap,
          Entity.components (h1 !!! this) = Entity.components (h !!! this) ->
          Entity.components
            (<[this := Entity.with_components
                 (Entity.setSlot i None
                    (Entity.components
                       (<[child := Entity.with_parent None (h1 !!! child)]> h1 !!! this)))
                 (<[child := Entity.with_parent None (h1 !!! child)]> h1 !!! this)]>
               (<[child := Entity.with_parent None (h1 !!! child)]> h1) !!! this)
          = <[i := None]> (Entity.components (h !!! this))) as Hstep.
  { intros h1 Hsame. rewrite lookup_total_insert_eq. cbn [Entity.components Entity.with_components].
    assert (Entity.components (<[child := Entity.with_parent None (h1 !!! child)]> h1 !!! this)
            = Entity.components (h !!! this)) as ->.
    { destruct (decide (child = this)) as [->|Hne].
      - rewrite lookup_total_insert_eq. exact Hsame.
      - rewrite lookup_total_insert_ne by exact Hne. exact Hsame. }
    apply indexOf_Some in Hindex as [Hi _]. apply lookup_lt_Some in Hi.
    unfold Entity.setSlot. destruct (decide (i < length _)%nat); [reflexivity | lia]. }
  unfold Entity.callHook. destruct (hook child Destroy) as [f|] eqn:Ehook; cbn [fst snd].
  - apply Hstep. apply (Hkeeps child f Ehook).
  - apply Hstep. reflexivity.
Qed.

(** X5. [remove] of a child found at index [i] (its first slot) calls the
    child's [destroy], if it has one, and nothing else, clears the child's
    parent and returns the entity; when that [destroy] leaves the
    component list alone, slot [i] is nulled and no other slot moves. *)
Theorem remove_present (hook : Entity.Hooks) (this child : Ref) (i : nat) (h : Entity.Heap) :
  Entity.indexOf child (Entity.components (h !!! this)) = Some i ->
  let r := Entity.remove hook this (Some child) h in
  Entity.result r = Entity.RetThis this /\
  Entity.trace r = callOf hook child Destroy /\
  Entity.parent (Entity.heap r !!! child) = None /\
  (keepsComponents hook Destroy this ->
   Entity.components (Entity.heap r !!! this) = <[i := None]> (Entity.components (h !!! this)) /\
   length (Entity.components (Entity.heap r !!! this)) = length (Entity.components (h !!! this))).
Proof.
  intros Hindex. cbv zeta. split; [|split; [|split]].
  - unfold Entity.remove. unfold_run. rewrite Hindex.
    destruct (Entity.callHook hook child Destroy h) as [[[] h1] t1]. reflexivity.
  - unfold Entity.remove. unfold_run. rewrite Hindex.
    unfold Entity.callHook, callOf. destruct (hook child Destroy); reflexivity.
  - unfold Entity.remove. unfold_run. rewrite Hindex.
    destruct (Entity.callHook hook child Destroy h) as [[[] h1] t1]. cbn [fst snd].
    destruct (decide (this = child)) as [->|Hne].
    + rewrite lookup_total_insert_eq. cbn. rewrite lookup_total_insert_eq. reflexivity.
    + rewrite lookup_total_insert_ne by exact Hne.
      rewrite lookup_total_insert_eq. reflexivity.
  - intros Hkeeps. rewrite (remove_stable hook this child i h Hindex Hkeeps).
    split; [reflexivity | apply length_insert].
Qed.

Lemma remove_present_witness :
  Entity.trace (Entity.remove idleHooks 0%nat (Some 2%nat) twoPainters) = [Call 2%nat Destroy] /\
  Entity.components (Entity.heap (Entity.remove idleHooks 0%nat (Some 2%nat) twoPainters)
                     !!! 0%nat) = [Some 1%nat; None; None].
Proof.
  destruct (remove_present idleHooks 0%nat 2%nat 2%nat twoPainters eq_refl)
    as [_ [Htrace [_ Hslots]]].
  destruct (Hslots (idleHooks_keep Destroy 0%nat)) as [Hlist _].
  split; [exact Htrace | exact (eq_trans Hlist eq_refl)].
Defined.

Lemma remove_clears_parent (hook : Entity.Hooks) (this child : Ref) (i : nat) (h : Entity.Heap) :
  Entity.indexOf child (Entity.components (h !!! this)) = Some i ->
  Entity.parent (Entity.heap (Entity.remove hook this (Some child) h) !!! child) = None.
Proof.
  intros Hindex. unfold Entity.remove. unfold_run. rewrite Hindex.
  destruct (Entity.callHook hook child Destroy h) as [[[] h1] t1]. cbn [fst snd].
  destruct (decide (this = child)) as [->|Hne].
  - rewrite lookup_total_insert_eq. cbn. rewrite lookup_total_insert_eq. reflexivity.
  - rewrite lookup_total_insert_ne by exact Hne.
    rewrite lookup_total_insert_eq. reflexivity.
Qed.

Lemma live_insert_None (i : nat) (cs : list (option Ref)) :
  (i < length cs)%nat -> live (<[i := None]> cs) = live (delete i cs).
Proof.
  intros Hi. rewrite insert_take_drop by exact Hi. rewrite delete_take_drop.
  rewrite !live_app. reflexivity.
Qed.

Lemma elem_of_live (c : Ref) (cs : list (option Ref)) : c ∈ live cs <-> Some c ∈ cs.
Proof.
  unfold live. rewrite list_elem_of_omap. split.
  - intros [slot [Hin ->]]. exact Hin.
  - intros Hin. exists (Some c). split; [exact Hin | reflexivity].
Qed.

(** A child that sits in slot [i] only is not among the other slots. *)
Lemma not_in_delete (child : Ref) (i : nat) (cs : list (option Ref)) :
  (forall j, cs !! j = Some (Some child) -> j = i) -> Some child ∉ delete i cs.
Proof.
  intros Honce Hin. apply list_elem_of_lookup in Hin as [j Hj].
  destruct (decide (j < i)%nat) as [Hlt|Hge].
  - rewrite list_lookup_delete_lt in Hj by exact Hlt. apply Honce in Hj. lia.
  - rewrite list_lookup_delete_ge in Hj by lia. apply Honce in Hj. lia.
Qed.

(** X6. After [remove], the next [update] calls no hook of the removed
    child's slot and compacts the list: the other live components are
    called and kept, in their order; a child that sat in one slot only is
    neither called nor in the list any more. *)
Theorem remove_then_update (hook : Entity.Hooks) (this child : Ref) (i : nat)
    (speed timer : Q) (h : Entity.Heap) :
  Entity.indexOf child (Entity.components (h !!! this)) = Some i ->
  keepsComponents hook Destroy this -> keepsComponents hook Update this ->
  let h1 := Entity.heap (Entity.remove hook this (Some child) h) in
  let r := Entity.update hook this speed timer h1 in
  Entity.trace r =
    map (fun c => Call c Update)
        (having hook Update (live (delete i (Entity.components (h !!! this))))) /\
  Entity.components (Entity.heap r !!! this)
    = Some <$> live (delete i (Entity.components (h !!! this))) /\
  ((forall j, Entity.components (h !!! this) !! j = Some (Some child) -> j = i) ->
   (Call child Update ∉ Entity.trace r) /\
   (Some child ∉ Entity.components (Entity.heap r !!! this))).
Proof.
  intros Hindex Hdestroy Hupdate h1 r.
  destruct (update_stable hook this speed timer h1 Hupdate) as [Ht Hc].
  fold r in Ht, Hc. subst h1.
  rewrite (remove_stable hook this child i h Hindex Hdestroy) in Ht, Hc.
  assert (i < length (Entity.components (h !!! this)))%nat as Hi.
  { apply indexOf_Some in Hindex as [Hi _]. apply lookup_lt_Some in Hi. exact Hi. }
  rewrite live_insert_None in Ht, Hc by exact Hi.
  split; [exact Ht|]. split; [exact Hc|].
  intros Honce. pose proof (not_in_delete child i _ Honce) as Hgone.
  rewrite Ht, Hc. split.
  - intros Hin. apply list_elem_of_fmap in Hin as [c [Heq Hin]].
    injection Heq as <-. unfold having in Hin.
    apply list_elem_of_In, List.filter_In in Hin as [Hin _].
    apply list_elem_of_In, elem_of_live in Hin. exact (Hgone Hin).
  - intros Hin. apply list_elem_of_fmap in Hin as [c [Heq Hin]].
    injection Heq as <-. apply elem_of_live in Hin. exact (Hgone Hin).
Qed.

Lemma remove_then_update_witness :
  let h1 := Entity.heap (Entity.remove idleHooks 0%nat (Some 1%nat) twoPainters) in
  Entity.trace (Entity.update idleHooks 0%nat 1 0 h1) = [Call 2%nat Update].
Proof.
  intros h1.
  destruct (remove_then_update idleHooks 0%nat 1%nat 0%nat 1 0 twoPainters eq_refl
              (idleHooks_keep Destroy 0%nat) (idleHooks_keep Update 0%nat)) as [Htrace _].
  exact (eq_trans Htrace eq_refl).
Defined.

(** ** Attaching and removing again *)

(** Hooks that leave the component list alone leave it alone in a row. *)
Lemma replay_keeps (hook : Entity.Hooks) (this : Ref) (tr : list Event) (h : Entity.Heap) :
  Forall (fun ev => forall c k, ev = Call c k -> keepsComponents hook k this) tr ->
  Entity.components (replay hook tr h !!! this) = Entity.components (h !!! this).
Proof.
  revert h. induction tr as [|ev tr IH]; intros h Hall; [reflexivity|].
  apply Forall_cons in Hall as [Hev Hall].
  destruct ev as [c k| | |]; cbn [replay]; try (apply IH; exact Hall).
  rewrite (IH _ Hall). destruct (hook c k) as [f|] eqn:E; [|reflexivity].
  apply (Hev c k eq_refl c f E).
Qed.

Lemma callOf_keeps (hook : Entity.Hooks) (this child : Ref) (k : HookName) :
  keepsComponents hook k this ->
  Forall (fun ev => forall c k', ev = Call c k' -> keepsComponents hook k' this)
         (callOf hook child k).
Proof.
  intros Hkeeps. unfold callOf. destruct (hook child k); [|constructor].
  constructor; [|constructor]. intros c k' [= <- <-]. exact Hkeeps.
Qed.

(** The component list after an [attach] that is not refused, when the
    hooks of the child leave it alone. *)
Lemma attach_stable (hook : Entity.Hooks) (fuel : nat) (this child : Ref) (force : bool)
    (h : Entity.Heap) :
  negb force && (Entity.isAdded (h !!! child)
                 || bool_decide (is_Some (Entity.parent (h !!! child)))) = false ->
  keepsComponents hook Init this -> keepsComponents hook Attached this ->
  keepsComponents hook Start this ->
  Entity.components (Entity.heap (Entity.attach hook fuel this child force h) !!! this)
  = Entity.components (h !!! this) ++ [Some child].
Proof.
  intros Hguard Hinit Hattached Hstart.
  destruct (attach_proceeds hook fuel this child force h Hguard) as [Hheap [n Htrace]].
  rewrite Hheap, Htrace, replay_keeps; [apply linked_components|].
  apply Forall_app. split; [apply callOf_keeps, Hinit|].
  apply Forall_app. split; [apply callOf_keeps, Hattached|].
  apply Forall_concat, Forall_replicate, callOf_keeps, Hstart.
Qed.

(** X7. Attaching a free child that is not yet among the components and
    removing it again, the hooks of the child leaving the component list
    alone: the child was appended, its slot is now nulled and its parent
    cleared, and compaction gives back the live components there were. *)
Theorem attach_then_remove (hook : Entity.Hooks) (fuel : nat) (this child : Ref)
    (h : Entity.Heap) :
  Entity.isAdded (h !!! child) = false -> Entity.parent (h !!! child) = None ->
  Some child ∉ Entity.components (h !!! this) ->
  keepsComponents hook Init this -> keepsComponents hook Attached this ->
  keepsComponents hook Start this -> keepsComponents hook Destroy this ->
  let h1 := Entity.heap (Entity.attach hook fuel this child false h) in
  let r := Entity.remove hook this (Some child) h1 in
  Entity.components (h1 !!! this) = Entity.components (h !!! this) ++ [Some child] /\
  Entity.components (Entity.heap r !!! this) = Entity.components (h !!! this) ++ [None] /\
  Entity.parent (Entity.heap r !!! child) = None /\
  Entity.components (Entity.cleanComponents (Entity.heap r !!! this))
    = Some <$> live (Entity.components (h !!! this)).
Proof.
  intros Hadded Hparent Hfresh Hinit Hattached Hstart Hdestroy h1 r.
  assert (negb false && (Entity.isAdded (h !!! child)
                         || bool_decide (is_Some (Entity.parent (h !!! child)))) = false)
    as Hguard.
  { rewrite Hadded, Hparent. reflexivity. }
  pose proof (attach_stable hook fuel this child false h Hguard Hinit Hattached Hstart)
    as Hlist.
  fold h1 in Hlist.
  assert (Entity.indexOf child (Entity.components (h1 !!! this))
          = Some (length (Entity.components (h !!! this)))) as Hindex.
  { apply indexOf_Some. rewrite Hlist. split.
    - rewrite lookup_app_r by lia. rewrite Nat.sub_diag. reflexivity.
    - intros j Hj Hslot. rewrite lookup_app_l in Hslot by exact Hj.
      apply Hfresh. apply list_elem_of_lookup. exists j. exact Hslot. }
  assert (Entity.components (Entity.heap r !!! this)
          = Entity.components (h !!! this) ++ [None]) as Hafter.
  { subst r. rewrite (remove_stable hook this child _ h1 Hindex Hdestroy), Hlist.
    rewrite insert_app_r_alt by lia. rewrite Nat.sub_diag. reflexivity. }
  split; [exact Hlist|]. split; [exact Hafter|]. split.
  - apply (remove_clears_parent hook this child _ h1 Hindex).
  - rewrite cleanComponents_live, Hafter, live_app. cbn. rewrite app_nil_r. reflexivity.
Qed.

Lemma attach_then_remove_witness :
  let h1 := Entity.heap (Entity.attach idleHooks 4 0%nat 2%nat false owned) in
  Entity.components (Entity.heap (Entity.remove idleHooks 0%nat (Some 2%nat) h1) !!! 0%nat)
  = [Some 1%nat; None].
Proof.
  intros h1.
  assert (Some 2%nat ∉ Entity.components (owned !!! 0%nat)) as Hfresh.
  { intros Hin. apply list_elem_of_In in Hin. cbn in Hin.
    destruct Hin as [Hin|[]]. discriminate Hin. }
  destruct (attach_then_remove idleHooks 4 0%nat 2%nat owned eq_refl eq_refl Hfresh
              (idleHooks_keep Init 0%nat) (idleHooks_keep Attached 0%nat)
              (idleHooks_keep Start 0%nat) (idleHooks_keep Destroy 0%nat))
    as [_ [Hafter _]].
  exact (eq_trans Hafter eq_refl).
Defined.

(** ** Looking up and moving components *)

Lemma findNamed_Some (h : Entity.Heap) (name : option string) (cs : list (option Ref))
    (i0 : nat) (c : Ref) (i : nat) :
  Entity.findNamed h name i0 cs = Some (c, i) <->
  exists k, i = (i0 + k)%nat /\ cs !! k = Some (Some c) /\
            Entity.name (h !!! c) = name /\
            forall j c', (j < k)%nat -> cs !! j = Some (Some c') ->
                         Entity.name (h !!! c') <> name.
Proof.
  revert i0. induction cs as [|slot cs IH]; intros i0.
  - cbn. split; [discriminate|]. intros [k [_ [Hk _]]]. discriminate Hk.
  - cbn [Entity.findNamed]. destruct slot as [c0|].
    + case_bool_decide as Heq; [|rename Heq into Hne].
      * split.
        -- intros [= <- <-]. exists 0%nat. split; [lia|]. split; [reflexivity|].
           split; [exact Heq|]. intros j c' Hj. lia.
        -- intros [k [-> [Hk [Hname Hfirst]]]]. destruct k as [|k].
           ++ cbn in Hk. injection Hk as <-. f_equal. f_equal. lia.
           ++ exfalso. exact (Hfirst 0%nat c0 ltac:(lia) eq_refl Heq).
      * rewrite IH. split.
        -- intros [k [-> [Hk [Hname Hfirst]]]]. exists (S k).
           split; [lia|]. split; [exact Hk|]. split; [exact Hname|].
           intros [|j] c' Hj Hslot.
           ++ cbn in Hslot. injection Hslot as <-. exact Hne.
           ++ apply (Hfirst j c'); [lia | exact Hslot].
        -- intros [k [-> [Hk [Hname Hfirst]]]]. destruct k as [|k].
           ++ cbn in Hk. injection Hk as <-. contradiction.
           ++ exists k. split; [lia|]. split; [exact Hk|]. split; [exact Hname|].
              intros j c' Hj Hslot. apply (Hfirst (S j) c'); [lia | exact Hslot].
    + rewrite IH. split.
      * intros [k [-> [Hk [Hname Hfirst]]]]. exists (S k).
        split; [lia|]. split; [exact Hk|]. split; [exact Hname|].
        intros [|j] c' Hj Hslot; [discriminate Hslot|].
        apply (Hfirst j c'); [lia | exact Hslot].
      * intros [k [-> [Hk [Hname Hfirst]]]]. destruct k as [|k]; [discriminate Hk|].
        exists k. split; [lia|]. split; [exact Hk|]. split; [exact Hname|].
        intros j c' Hj Hslot. apply (Hfirst (S j) c'); [lia | exact Hslot].
Qed.

Lemma findNamed_None (h : Entity.Heap) (name : option string) (cs : list (option Ref))
    (i0 : nat) :
  Entity.findNamed h name i0 cs = None <->
  forall c, c ∈ live cs -> Entity.name (h !!! c) <> name.
Proof.
  revert i0. induction cs as [|slot cs IH]; intros i0.
  - cbn. split; [|reflexivity]. intros _ c Hin. apply elem_of_nil in Hin. contradiction.
  - cbn [Entity.findNamed]. destruct slot as [c0|].
    + case_bool_decide as Heq; [|rename Heq into Hne].
      * split; [discriminate|]. intros Hall. exfalso.
        apply (Hall c0); [|exact Heq]. apply elem_of_live. left.
      * rewrite IH. split.
        -- intros Hall c Hin. apply elem_of_live in Hin. apply elem_of_cons in Hin.
           destruct Hin as [[= ->]|Hin]; [exact Hne|]. apply Hall, elem_of_live, Hin.
        -- intros Hall c Hin. apply Hall. apply elem_of_live. right.
           apply elem_of_live, Hin.
    + rewrite IH. split.
      * intros Hall c Hin. apply elem_of_live in Hin. apply elem_of_cons in Hin.
        destruct Hin as [Hin|Hin]; [discriminate Hin|]. apply Hall, elem_of_live, Hin.
      * intros Hall c Hin. apply Hall. apply elem_of_live. right.
        apply elem_of_live, Hin.
Qed.

(** X8. [getComponent] finds the first live component that has the name:
    it returns the component in slot [i] exactly when that slot holds it,
    it has the name and no live component in an earlier slot has; it
    returns [null] exactly when no live component has the name.  A
    component without a [name] property has no name that a string could
    equal, not the empty one either. *)
Theorem getComponent_first (h : Entity.Heap) (this : Ref) (name : option string) :
  (forall c i,
     Entity.getComponent h this name = Some (c, i) <->
     Entity.components (h !!! this) !! i = Some (Some c) /\
     Entity.name (h !!! c) = name /\
     forall j c', (j < i)%nat -> Entity.components (h !!! this) !! j = Some (Some c') ->
                  Entity.name (h !!! c') <> name) /\
  (Entity.getComponent h this name = None <->
   forall c, c ∈ live (Entity.components (h !!! this)) -> Entity.name (h !!! c) <> name).
Proof.
  unfold Entity.getComponent. split.
  - intros c i. rewrite findNamed_Some. split.
    + intros [k [-> H]]. exact H.
    + intros H. exists i. split; [reflexivity | exact H].
  - apply findNamed_None.
Qed.

Lemma getComponent_first_witness :
  Entity.getComponent nameless 0%nat (Some "") = Some (2%nat, 1%nat) /\
  Entity.getComponent nameless 0%nat (Some "hud") = Some (3%nat, 2%nat) /\
  Entity.getComponent nameless 0%nat (Some "third") = None.
Proof.
  destruct (getComponent_first nameless 0%nat (Some "third")) as [_ Hnone].
  split; [reflexivity|]. split; [reflexivity|]. apply Hnone.
  intros c Hin. apply list_elem_of_In in Hin. cbn in Hin.
  destruct Hin as [<-|[<-|[<-|[]]]]; discriminate.
Defined.

(** Where [splice] puts the item: at a position within the array. *)
Lemma spliceIn_at {A} (start : Z) (item : A) (array : list A) :
  exists k, (k <= length array)%nat /\
            Entity.spliceIn start item array = take k array ++ item :: drop k array /\
            ((0 <= start)%Z -> k = Nat.min (Z.to_nat start) (length array)).
Proof.
  unfold Entity.spliceIn. cbv zeta.
  destruct (Z.ltb_spec start 0) as [Hneg|Hpos].
  - exists (Z.to_nat (Z.max (Z.of_nat (length array) + start) 0)).
    split; [lia|]. split; [reflexivity|]. lia.
  - exists (Z.to_nat (Z.min start (Z.of_nat (length array)))).
    split; [lia|]. split; [reflexivity|]. lia.
Qed.

(** X9. [moveComponentTo] of a component found at index [i] rearranges
    the list without losing or adding a slot: the new list is a
    permutation of the old one of the same length; taking the component
    out again gives the old list without slot [i], so the others keep
    their order; and for [newIndex >= 0] the component sits at
    [newIndex], or in the last slot when [newIndex] is past the end.  A
    missing component, or one that is not in the list, changes nothing. *)
Theorem moveComponentTo_rearranges (this : Ref) (c : Ref) (i : nat) (newIndex : Z)
    (h : Entity.Heap) :
  Entity.moveComponentTo this None newIndex h = h /\
  (Some c ∉ Entity.components (h !!! this) ->
   Entity.moveComponentTo this (Some c) newIndex h = h) /\
  (Entity.indexOf c (Entity.components (h !!! this)) = Some i ->
   let cs := Entity.components (h !!! this) in
   let cs' := Entity.components (Entity.moveComponentTo this (Some c) newIndex h !!! this) in
   cs' ≡ₚ cs /\
   length cs' = length cs /\
   exists k, cs' !! k = Some (Some c) /\ delete k cs' = delete i cs /\
             ((0 <= newIndex)%Z -> k = Nat.min (Z.to_nat newIndex) (length cs - 1))).
Proof.
  split; [reflexivity|]. split.
  - intros Habsent. unfold Entity.moveComponentTo.
    apply indexOf_None in Habsent. rewrite Habsent. reflexivity.
  - intros Hindex cs cs'. subst cs'. unfold Entity.moveComponentTo. rewrite Hindex.
    rewrite lookup_total_insert_eq. cbn [Entity.components Entity.with_components].
    fold cs. apply indexOf_Some in Hindex as [Hi _]. fold cs in Hi.
    destruct (spliceIn_at newIndex (Some c) (delete i cs)) as [k [Hk [-> Hpos]]].
    pose proof (lookup_lt_Some _ _ _ Hi) as Hlen.
    assert (length (delete i cs) = (length cs - 1)%nat) as Hdel.
    { rewrite length_delete by (eexists; exact Hi). reflexivity. }
    assert (length (take k (delete i cs)) = k) as Htake.
    { rewrite length_take_le by exact Hk. reflexivity. }
    split; [|split].
    + etrans; [|symmetry; apply (delete_Permutation cs i (Some c) Hi)].
      rewrite <- Permutation_middle, take_drop. reflexivity.
    + rewrite length_app, length_cons, Htake, length_drop, Hdel. lia.
    + exists k. split; [|split].
      * apply list_lookup_middle. symmetry. exact Htake.
      * pose proof (take_drop k (delete i cs)) as Htd.
        set (l1 := take k (delete i cs)) in *. set (l2 := drop k (delete i cs)) in *.
        rewrite <- Htake, delete_middle. exact Htd.
      * intros H0. rewrite <- Hdel. apply Hpos, H0.
Qed.

Lemma moveComponentTo_rearranges_witness :
  Entity.components (Entity.moveComponentTo 0%nat (Some 1%nat) 5 twoPainters !!! 0%nat)
    = [None; Some 2%nat; Some 1%nat] /\
  length (Entity.components (Entity.moveComponentTo 0%nat (Some 1%nat) 5 twoPainters !!! 0%nat))
    = length (Entity.components (twoPainters !!! 0%nat)).
Proof.
  destruct (moveComponentTo_rearranges 0%nat 1%nat 0%nat 5 twoPainters) as [_ [_ Hmoved]].
  destruct (Hmoved eq_refl) as [_ [Hlen _]].
  split; [reflexivity | exact Hlen].
Defined.

(** ** More on the collision query *)

Section ScanFirst.

Variable this : Entity.t.
Variable box : Rectangle.
Variable callback : bool.

Let reported (array : list Entity.Value) : list Entity.Value :=
  List.filter (fun obj => negb (Entity.sameId this obj) && Entity.hitBy box obj) array.

(** Stopping at the first collision. *)
Lemma scan_first (array : list Entity.Value) :
  Entity.scan this box callback true array None =
  match reported array with
  | [] => (Entity.RNull, [])
  | obj :: _ => (Entity.RObject obj, if callback then [Entity.Callback obj] else [])
  end.
Proof.
  subst reported. induction array as [|obj rest IH]; [reflexivity|].
  cbn [Entity.scan List.filter].
  destruct (Entity.sameId this obj); cbn [negb andb]; [exact IH|].
  destruct (Entity.hitBy box obj); [reflexivity | exact IH].
Qed.

(** Collecting all collisions: the callback is called on each hit, in order. *)
Lemma scan_all_callbacks (array : list Entity.Value) (collisions : option (list Entity.Value)) :
  snd (Entity.scan this box callback false array collisions) =
  if callback then Entity.Callback <$> reported array else [].
Proof.
  subst reported. revert collisions.
  induction array as [|obj rest IH]; intros collisions.
  - cbn. destruct callback; reflexivity.
  - cbn [Entity.scan List.filter].
    destruct (Entity.sameId this obj); cbn [negb andb]; [apply IH|].
    destruct (Entity.hitBy box obj); [|apply IH].
    specialize (IH (Some (match collisions with Some l => l | None => [] end ++ [obj]))).
    destruct (Entity.scan this box callback false rest _) as [r t].
    cbn [snd] in *. rewrite IH. destruct callback; reflexivity.
Qed.

End ScanFirst.

(** X10. A query that stops at the first collision (the default, and the
    only way of the old call shapes) returns the first candidate, in the
    order of the candidate set, that is not skipped and intersects, after
    calling the callback, if any, on it and on nothing else; it returns
    [null] and calls nothing when there is no such candidate. *)
Theorem collidesWith_first (objects : Entity.Registry) (this : Entity.t)
    (q : Entity.Query) (array : list Entity.Value) (offset : Vector2) (callback : bool) :
  Entity.readQuery objects q = Entity.Scan array offset callback true ->
  Entity.collidesWith objects this q =
  match hits this offset array with
  | [] => (Entity.RNull, [])
  | obj :: _ => (Entity.RObject obj, if callback then [Entity.Callback obj] else [])
  end.
Proof.
  intros Hread. unfold Entity.collidesWith. rewrite Hread.
  destruct array as [|obj rest]; [reflexivity|]. apply scan_first.
Qed.

Lemma collidesWith_first_witness :
  let this := square 1 0 0 10 in
  let near := square 2 5 5 10 in
  let far := square 3 100 100 10 in
  let over := square 4 (-5) (-5) 10 in
  Entity.collidesWith (enemies []) this
    (Entity.QArray (Entity.VEntity <$> [far; this; over; near]) None true)
  = (Entity.RObject (Entity.VEntity over), [Entity.Callback (Entity.VEntity over)]).
Proof.
  intros this near far over.
  rewrite (collidesWith_first (enemies []) this
             (Entity.QArray (Entity.VEntity <$> [far; this; over; near]) None true)
             (Entity.VEntity <$> [far; this; over; near]) (mkVector2 0 0) true eq_refl).
  reflexivity.
Defined.

(** X11. A query that collects all collisions calls the callback, if
    any, once on every hit, in the order of the candidate set, and on
    nothing else. *)
Theorem collidesWith_callbacks (objects : Entity.Registry) (this : Entity.t)
    (q : Entity.Query) (array : list Entity.Value) (offset : Vector2) (callback : bool) :
  Entity.readQuery objects q = Entity.Scan array offset callback false ->
  snd (Entity.collidesWith objects this q) =
  if callback then Entity.Callback <$> hits this offset array else [].
Proof.
  intros Hread. unfold Entity.collidesWith. rewrite Hread.
  destruct array as [|obj rest]; [destruct callback; reflexivity|].
  apply scan_all_callbacks.
Qed.

Lemma collidesWith_callbacks_witness :
  let this := square 1 0 0 10 in
  let near := square 2 5 5 10 in
  let far := square 3 100 100 10 in
  snd (Entity.collidesWith (enemies [near; far]) this
         (Entity.QSettings (Entity.mkSettings None (Some false) true None None "" "enemies")))
  = [Entity.Callback (Entity.VEntity near)].
Proof.
  intros this near far.
  rewrite (collidesWith_callbacks (enemies [near; far]) this
             (Entity.QSettings (Entity.mkSettings None (Some false) true None None "" "enemies"))
             (Entity.VEntity <$> [near; far]) (mkVector2 0 0) true eq_refl).
  reflexivity.
Defined.

(** X12. On an array, [collidesWithGroup] answers as [collidesWith] does
    in its old array form: same result, same callback calls.  What is not
    an array (an entity with an offset or a callback given, which makes
    it the old call shape, or settings without [other]) is refused: the
    error is logged and [undefined] returned. *)
Theorem collidesWithGroup_agrees (objects : Entity.Registry) (this : Entity.t)
    (l : list Entity.t) (offset : option Vector2) (callback : bool) :
  Entity.collidesWithGroup this (Entity.GOld (Entity.VArray l) offset callback) =
    (Entity.GReturn (fst (Entity.collidesWith objects this
                            (Entity.QArray (Entity.VEntity <$> l) offset callback))),
     snd (Entity.collidesWith objects this
            (Entity.QArray (Entity.VEntity <$> l) offset callback))) /\
  (forall e offset' callback',
     is_Some offset' \/ callback' = true ->
     Entity.collidesWithGroup this (Entity.GOld (Entity.VEntity e) offset' callback') =
     (Entity.GUndefined,
      [Entity.Warning "ERROR: Collision check must be with an Array of object"])) /\
  (forall offset' callback',
     Entity.collidesWithGroup this (Entity.GSettings None offset' callback') =
     (Entity.GUndefined,
      [Entity.Warning "ERROR: Collision check must be with an Array of object"])).
Proof.
  split; [|split; [intros e offset' callback' _|]; reflexivity].
  unfold Entity.collidesWithGroup, Entity.collidesWith. cbn [Entity.readQuery].
  destruct l as [|e l]; [reflexivity|].
  cbn [fmap list_fmap]. 
  destruct (Entity.scan this _ callback true _ None) as [r t]. reflexivity.
Qed.

(** ** More on the bounding box *)

(** X13. With an explicit bounding box the result does not depend on the
    origin or the dimension, and a mirrored scale does not mirror it:
    entities with the same box, the same position and scales of the same
    magnitude get the same rectangle, which is the box scaled by the
    magnitude and moved to the position; its width and height are not
    negative when those of the box are not. *)
Theorem getBoundingBox_explicit (e : Entity.t) (box : Rectangle) :
  Entity.boundingBox e = Some box ->
  let s := effectiveScale e in
  let b := Entity.getBoundingBox e in
  (rx b == vx (Entity.position e) + rx box * Qabs (vx s) /\
   ry b == vy (Entity.position e) + ry box * Qabs (vy s) /\
   rwidth b == rwidth box * Qabs (vx s) /\
   rheight b == rheight box * Qabs (vy s)) /\
  (0 <= rwidth box -> 0 <= rwidth b) /\
  (0 <= rheight box -> 0 <= rheight b) /\
  (forall e', Entity.boundingBox e' = Some box ->
     Entity.position e' = Entity.position e ->
     Qabs (vx (effectiveScale e')) == Qabs (vx s) ->
     Qabs (vy (effectiveScale e')) == Qabs (vy s) ->
     rx (Entity.getBoundingBox e') == rx b /\ ry (Entity.getBoundingBox e') == ry b /\
     rwidth (Entity.getBoundingBox e') == rwidth b /\
     rheight (Entity.getBoundingBox e') == rheight b).
Proof.
  intros Hbox s b. subst b s. unfold Entity.getBoundingBox, effectiveScale.
  rewrite Hbox. cbn [rx ry rwidth rheight].
  split; [repeat split; ring|]. split; [|split].
  - intros Hw. apply Qmult_le_0_compat; [exact Hw | apply Qabs_nonneg].
  - intros Hh. apply Qmult_le_0_compat; [exact Hh | apply Qabs_nonneg].
  - intros e' Hbox' Hpos Hsx Hsy. rewrite Hbox', Hpos. cbn [rx ry rwidth rheight].
    repeat split; rewrite ?Hsx, ?Hsy; reflexivity.
Qed.

Lemma getBoundingBox_explicit_witness :
  let box := mkRectangle (-4) (-4) 8 8 in
  let e := Entity.mk 3 (Some "hit") false true (mkVector2 10 20) (mkVector2 2 3)
                     (mkRectangle 0 0 30 30) (Some (mkVector2 (-2) 1)) (Some box) [] None in
  Entity.getBoundingBox e = mkRectangle (-4 * Qabs (-2) + 10) (-4 * Qabs 1 + 20)
                                        (8 * Qabs (-2)) (8 * Qabs 1) /\
  0 <= rwidth (Entity.getBoundingBox e).
Proof.
  intros box e. split; [reflexivity|].
  apply (getBoundingBox_explicit e box eq_refl). discriminate.
Defined.

(** ** More on the modal component *)

(** X15. Started at a numeric pause level [g0], the modal never lowers
    it: the new level is [g0 + 1] when no target is set or the target is
    below [g0], and the target when that is a non-zero number not below
    [g0].  The warning is logged exactly when the target is below [g0]
    and warnings are not suppressed; it names the target of the settings
    and [g0].  An attached modal exempts its owner at the new level; one
    that was never attached raises after it has set the level. *)
Theorem modal_start_raises (m : Modal.t) (w : Modal.World) (g0 : Z) :
  Modal.isPaused w = Modal.Num g0 ->
  let m1 := fst (fst (Modal.start m w)) in
  let w1 := snd (fst (Modal.start m w)) in
  (exists z, Modal.isPaused w1 = Modal.Num z /\ (g0 <= z)%Z /\
             (Modal.pauseLevel m = Modal.Undefined -> z = (g0 + 1)%Z) /\
             (forall t, Modal.pauseLevel m = Modal.Num t ->
                        z = if (t <? g0)%Z || (t =? 0)%Z then (g0 + 1)%Z else t)) /\
  (Modal.logged w1 =
     if Modal.lt (Modal.pauseLevel m) (Modal.Num g0) && negb (Modal.surpressWarnings m)
     then Modal.logged w ++ [Modal.lowerTarget (Modal.settings_pauseLevel m) (Modal.Num g0)]
     else Modal.logged w) /\
  (forall e, Modal.entity m = Some e ->
     snd (Modal.start m w) = Modal.Normal /\
     Modal.updateWhenPaused w1 !! e = Some (Modal.isPaused w1)) /\
  (Modal.entity m = None -> snd (Modal.start m w) = Modal.TypeError).
Proof.
  intros Hlevel. unfold Modal.start. rewrite Hlevel. cbv zeta.
  cbn [Modal.entity].
  split; [|split; [|split]].
  - assert (exists z,
              (if Modal.truthy (if Modal.lt (Modal.pauseLevel m) (Modal.Num g0)
                                then Modal.succ (Modal.Num g0) else Modal.pauseLevel m)
               then (if Modal.lt (Modal.pauseLevel m) (Modal.Num g0)
                     then Modal.succ (Modal.Num g0) else Modal.pauseLevel m)
               else Modal.succ (Modal.Num g0)) = Modal.Num z /\ (g0 <= z)%Z /\
              (Modal.pauseLevel m = Modal.Undefined -> z = (g0 + 1)%Z) /\
              (forall t, Modal.pauseLevel m = Modal.Num t ->
                         z = if (t <? g0)%Z || (t =? 0)%Z then (g0 + 1)%Z else t))
      as [z [Hz Hrest]].
    { destruct (Modal.pauseLevel m) as [| |t]; cbn.
      - destruct (negb (g0 + 1 =? 0)%Z); exists (g0 + 1)%Z;
          (split; [reflexivity|]); (split; [lia|]); (split; [reflexivity|]); discriminate.
      - exists (g0 + 1)%Z.
        split; [reflexivity|]. split; [lia|]. split; discriminate.
      - destruct (Z.ltb_spec t g0) as [Hlt|Hge]; cbn.
        + exists (g0 + 1)%Z. split; [destruct (negb (g0 + 1 =? 0)%Z); reflexivity|].
          split; [lia|]. split; [discriminate|].
          intros t' [= <-]. destruct (Z.ltb_spec t g0); [reflexivity | lia].
        + destruct (Z.eqb_spec t 0) as [->|Hnz]; cbn.
          * exists (g0 + 1)%Z. split; [reflexivity|]. split; [lia|]. split; [discriminate|].
            intros t' [= <-]. destruct (Z.ltb_spec 0 g0); reflexivity.
          * exists t. split; [reflexivity|]. split; [lia|]. split; [discriminate|].
            intros t' [= <-]. destruct (Z.ltb_spec t g0); [lia|].
            destruct (Z.eqb_spec t 0); [contradiction | reflexivity]. }
    exists z. rewrite Hz. split; [|exact Hrest].
    destruct (Modal.entity m); reflexivity.
  - destruct (Modal.entity m); cbn;
      destruct (Modal.lt (Modal.pauseLevel m) (Modal.Num g0) && negb (Modal.surpressWarnings m));
      reflexivity.
  - intros e ->. cbn. split; [reflexivity|]. apply lookup_insert_eq.
  - intros ->. reflexivity.
Qed.

Lemma modal_start_raises_witness :
  let late := Modal.attached 7%nat (Modal.create (Modal.Num 1) false) in
  let w := Modal.mkWorld (Modal.Num 3) ∅ [] in
  Modal.level (snd (fst (Modal.start late w))) = Modal.Num 4 /\
  Modal.logged (snd (fst (Modal.start late w))) =
    [[Modal.Text "Warning: target pauseLevel ("; Modal.Value (Modal.Num 1);
      Modal.Text ") is lower than current pause ("; Modal.Value (Modal.Num 3);
      Modal.Text ")"]].
Proof.
  intros late w.
  destruct (modal_start_raises late w 3 eq_refl) as [_ [Hlog _]].
  split; [reflexivity | exact Hlog].
Defined.

Lemma startAll_destroyAll (ms : list Modal.t) (w : Modal.World) (g0 : Z) :
  Modal.isPaused w = Modal.Num g0 ->
  Modal.isPaused (destroyAll (rev (fst (startAll ms w))) (snd (startAll ms w))) = Modal.Num g0.
Proof.
  revert w g0. induction ms as [|m ms IH]; intros w g0 Hlevel; [exact Hlevel|].
  cbn [startAll].
  destruct (start_sets_number m w g0 Hlevel) as [Hold [Hset [z Hz]]].
  destruct (Modal.start m w) as [[m1 w1] c]. cbn [fst snd] in Hold, Hset, Hz.
  assert (Modal.isPaused w1 = Modal.Num z) as Hlevel1 by (rewrite Hset; exact Hz).
  specialize (IH w1 z Hlevel1).
  destruct (startAll ms w1) as [started w2]. cbn [fst snd rev] in IH |- *.
  unfold destroyAll in *. rewrite fold_left_app. cbn [fold_left].
  unfold Modal.destroy at 1. rewrite IH, Hz.
  assert (Modal.strictNe (Modal.Num z) (Modal.Num z) = false) as ->
    by (apply strictNe_Num; reflexivity).
  rewrite Hold. reflexivity.
Qed.

(** X16. Modals opened one after the other and closed in the reverse
    order give back the pause level there was before the first one,
    whatever their targets (and also when one of them has no owner yet,
    so that its [start] raises after setting the level). *)
Theorem modal_last_opened_first_closed (ms : list Modal.t) (w : Modal.World) (g0 : Z) :
  Modal.isPaused w = Modal.Num g0 ->
  let started := fst (startAll ms w) in
  let w1 := snd (startAll ms w) in
  length started = length ms /\
  Modal.isPaused (destroyAll (rev started) w1) = Modal.Num g0.
Proof.
  intros Hlevel. cbv zeta. split; [|apply startAll_destroyAll, Hlevel].
  clear Hlevel. revert w. induction ms as [|m ms IH]; intros w; [reflexivity|].
  cbn [startAll]. destruct (Modal.start m w) as [[m1 w1] c].
  specialize (IH w1). destruct (startAll ms w1) as [started w2].
  cbn [fst length] in *. rewrite IH. reflexivity.
Qed.

Lemma modal_last_opened_first_closed_witness :
  let third := Modal.attached 8%nat (Modal.create (Modal.Num 9) true) in
  Modal.level (snd (startAll [firstModal; secondModal; third] ambient)) = Modal.Num 9 /\
  Modal.level (destroyAll (rev (fst (startAll [firstModal; secondModal; third] ambient)))
                          (snd (startAll [firstModal; secondModal; third] ambient)))
  = Modal.Num 0.
Proof.
  intros third. split; [reflexivity|].
  apply (modal_last_opened_first_closed [firstModal; secondModal; third] ambient 0 eq_refl).
Defined.

(** X17. Two modals closed in the order they were opened: when the second
    one set another level than the first, the first one's [destroy] does
    nothing and the second one's puts back the level that the first one
    had set; the level from before the first one does not come back. *)
Theorem modal_closed_out_of_order (a b : Modal.t) (w : Modal.World) (g0 : Z) :
  Modal.isPaused w = Modal.Num g0 ->
  let a1 := fst (fst (Modal.start a w)) in
  let wa := snd (fst (Modal.start a w)) in
  let b1 := fst (fst (Modal.start b wa)) in
  let wb := snd (fst (Modal.start b wa)) in
  Modal.isPaused wb <> Modal.isPaused wa ->
  Modal.destroy a1 wb = wb /\
  Modal.isPaused (Modal.destroy b1 (Modal.destroy a1 wb)) = Modal.isPaused wa /\
  (Modal.isPaused wa <> Modal.Num g0 ->
   Modal.isPaused (Modal.destroy b1 (Modal.destroy a1 wb)) <> Modal.Num g0).
Proof.
  intros Hlevel a1 wa b1 wb Hraised.
  destruct (start_sets_number a w g0 Hlevel) as [Holda [Hseta [za Hza]]].
  fold a1 wa in Holda, Hseta, Hza.
  assert (Modal.isPaused wa = Modal.Num za) as Hlevela by (rewrite Hseta; exact Hza).
  destruct (start_sets_number b wa za Hlevela) as [Holdb [Hsetb [zb Hzb]]].
  fold b1 wb in Holdb, Hsetb, Hzb.
  assert (Modal.destroy a1 wb = wb) as Hskip.
  { unfold Modal.destroy. rewrite Hza.
    destruct (Modal.strictNe (Modal.isPaused wb) (Modal.Num za)) eqn:E; [reflexivity|].
    apply strictNe_Num in E. rewrite Hlevela in Hraised. contradiction. }
  assert (Modal.isPaused (Modal.destroy b1 (Modal.destroy a1 wb)) = Modal.isPaused wa)
    as Hback.
  { rewrite Hskip. unfold Modal.destroy. rewrite Hsetb, Hzb.
    assert (Modal.strictNe (Modal.Num zb) (Modal.Num zb) = false) as ->
      by (apply strictNe_Num; reflexivity).
    rewrite Holdb, Hlevela. reflexivity. }
  split; [exact Hskip|]. split; [exact Hback|]. rewrite Hback. trivial.
Qed.

Lemma modal_closed_out_of_order_witness :
  let a1 := fst (fst (Modal.start firstModal ambient)) in
  let wa := snd (fst (Modal.start firstModal ambient)) in
  let b1 := fst (fst (Modal.start secondModal wa)) in
  let wb := snd (fst (Modal.start secondModal wa)) in
  Modal.level (Modal.destroy b1 (Modal.destroy a1 wb)) = Modal.Num 1.
Proof.
  intros a1 wa b1 wb.
  destruct (modal_closed_out_of_order firstModal secondModal ambient 0 eq_refl)
    as [_ [Hback _]]; [discriminate|].
  exact Hback.
Defined.

(** ** More on the renderers *)


(** What the calls of the contract keep on a canvas2d renderer: the
    context of its canvas is the one captured when it was made. *)
Lemma canvas2d_call_canvas (r : Canvas2d.t) (c : RendererCall) :
  exists r', call (OfCanvas2d r) c = OfCanvas2d r' /\
             Canvas2d.canvas r' = Canvas2d.canvas r /\
             Canvas2d.original r' = Canvas2d.original r.
Proof.
  destruct c; cbn [call]; eexists; (split; [reflexivity|]);
    unfold Canvas2d.fillRect, Canvas2d.strokeRect, Canvas2d.setOpacity, Canvas2d.onContext;
    try destruct (Canvas2d.notOpaque color); split; reflexivity.
Qed.

Lemma canvas2d_calls_canvas (cs : list RendererCall) (r : Canvas2d.t) :
  exists r', calls cs (OfCanvas2d r) = OfCanvas2d r' /\
             Canvas2d.canvas r' = Canvas2d.canvas r /\
             Canvas2d.original r' = Canvas2d.original r.
Proof.
  revert r. induction cs as [|c cs IH]; intros r.
  - exists r. repeat split.
  - unfold calls in *. cbn [fold_left].
    destruct (canvas2d_call_canvas r c) as [r1 [-> [Hc1 Ho1]]].
    destruct (IH r1) as [r2 [-> [Hc2 Ho2]]].
    exists r2. split; [reflexivity|]. split; congruence.
Qed.

(** X19. On the canvas2d renderer, whatever calls were made before,
    [createSurface] hands back the context of the renderer's own canvas,
    the one captured at construction: after [restoreContext], a
    [setContext] to the surface just made redirects nothing. *)
Theorem canvas2d_createSurface_on_screen (cs : list RendererCall)
    (canvas : Ref) (contexts : gmap Ref Canvas2d.Context) (width height : Q) :
  exists r, calls cs (OfCanvas2d (Canvas2d.create canvas contexts)) = OfCanvas2d r /\
            Canvas2d.createSurface width height r = canvas /\
            Canvas2d.createSurface width height r = Canvas2d.original r /\
            Canvas2d.setContext (Canvas2d.createSurface width height r)
                                (Canvas2d.restoreContext r)
            = Canvas2d.restoreContext r.
Proof.
  destruct (canvas2d_calls_canvas cs (Canvas2d.create canvas contexts))
    as [r [Hr [Hcanvas Horiginal]]].
  exists r. split; [exact Hr|]. cbn in Hcanvas, Horiginal.
  unfold Canvas2d.createSurface, Canvas2d.setContext, Canvas2d.restoreContext. cbn.
  rewrite Hcanvas, Horiginal. repeat split; reflexivity.
Qed.

(** X20. Opacity belongs to the context, not to the renderer: set while
    another context is the target, it is not the opacity read after
    [restoreContext], which is the one the captured context had; set
    while the target is the captured context itself, as with a surface
    from [createSurface], it stays after [restoreContext]. *)
Theorem canvas2d_opacity_per_context (r : Canvas2d.t) (ctx : Ref) (value : Q) :
  let r' := Canvas2d.restoreContext
              (Canvas2d.setOpacity value (Canvas2d.setContext ctx r)) in
  Canvas2d.getOpacity (Canvas2d.setOpacity value (Canvas2d.setContext ctx r)) = value /\
  (ctx <> Canvas2d.original r ->
   Canvas2d.getOpacity r' = Canvas2d.getOpacity (Canvas2d.restoreContext r)) /\
  (ctx = Canvas2d.original r -> Canvas2d.getOpacity r' = value).
Proof.
  unfold Canvas2d.getOpacity, Canvas2d.restoreContext, Canvas2d.setOpacity,
         Canvas2d.setContext, Canvas2d.onContext. cbn.
  split; [|split].
  - rewrite lookup_total_insert_eq. reflexivity.
  - intros Hne. rewrite lookup_total_insert_ne by exact Hne. reflexivity.
  - intros ->. rewrite lookup_total_insert_eq. reflexivity.
Qed.

Lemma canvas2d_opacity_per_context_witness :
  let contexts : gmap Ref Canvas2d.Context :=
    <[0%nat := Canvas2d.mkContext 1 "" "" []]>
    (<[1%nat := Canvas2d.mkContext 1 "" "" []]> ∅) in
  let r := Canvas2d.create 0%nat contexts in
  Canvas2d.getOpacity
    (Canvas2d.restoreContext (Canvas2d.setOpacity (1 # 2) (Canvas2d.setContext 1%nat r)))
  = 1 /\
  Canvas2d.getOpacity
    (Canvas2d.restoreContext
       (Canvas2d.setOpacity (1 # 2)
          (Canvas2d.setContext (Canvas2d.createSurface 64 64 r) r)))
  = 1 # 2.
Proof.
  intros contexts r. split.
  - destruct (canvas2d_opacity_per_context r 1%nat (1 # 2)) as [_ [Hother _]].
    rewrite Hother; [reflexivity | discriminate].
  - reflexivity.
Defined.





(** ** The number helpers of [Utils] *)







(** ** [checksum] *)

Lemma toInt32_multiple (x k : Z) : Utils.toInt32 (x + 2 ^ 32 * k) = Utils.toInt32 x.
Proof.
  unfold Utils.toInt32. f_equal.
  replace (x + 2 ^ 32 * k + 2 ^ 31)%Z with (x + 2 ^ 31 + k * 2 ^ 32)%Z by ring.
  apply Z.mod_add. discriminate.
Qed.

Lemma toInt32_off (x : Z) : exists k, Utils.toInt32 x = (x + 2 ^ 32 * k)%Z.
Proof.
  unfold Utils.toInt32. exists (- ((x + 2 ^ 31) / 2 ^ 32))%Z.
  pose proof (Z.div_mod (x + 2 ^ 31) (2 ^ 32) ltac:(discriminate)). lia.
Qed.

Lemma toInt32_range (x : Z) : (- 2 ^ 31 <= Utils.toInt32 x < 2 ^ 31)%Z.
Proof.
  unfold Utils.toInt32.
  pose proof (Z.mod_pos_bound (x + 2 ^ 31) (2 ^ 32) ltac:(reflexivity)). lia.
Qed.

(** One turn of the loop, on a hash that is some [a] as a 32 bit integer. *)
Lemma checksum_step (a c : Z) :
  Utils.toInt32 (Utils.toInt32 (Utils.toInt32 (Utils.toInt32 a) * 2 ^ 5)
                 - Utils.toInt32 a + c)
  = Utils.toInt32 (31 * a + c).
Proof.
  destruct (toInt32_off a) as [k1 H1].
  assert (Utils.toInt32 (Utils.toInt32 a) = Utils.toInt32 a) as ->
    by (rewrite H1 at 1; apply toInt32_multiple).
  destruct (toInt32_off (Utils.toInt32 a * 2 ^ 5)) as [k2 ->]. rewrite H1.
  replace ((a + 2 ^ 32 * k1) * 2 ^ 5 + 2 ^ 32 * k2 - (a + 2 ^ 32 * k1) + c)%Z
    with (31 * a + c + 2 ^ 32 * (31 * k1 + k2))%Z by ring.
  apply toInt32_multiple.
Qed.

Lemma checksum_fold (str : list Z) (a : Z) :
  fold_left (fun hash c =>
               Utils.toInt32 (Utils.toInt32 (Utils.toInt32 hash * 2 ^ 5) - hash + c))
            str (Utils.toInt32 a)
  = Utils.toInt32 (fold_left (fun acc c => (31 * acc + c)%Z) str a).
Proof.
  revert a. induction str as [|c str IH]; intros a; [reflexivity|].
  cbn [fold_left]. rewrite checksum_step. apply IH.
Qed.

(** X26. [checksum] is Java's string hash: the char codes read as a
    number in base 31, brought into the signed 32 bit range; it is 0 for
    the empty string, and appending a char multiplies by 31 and adds its
    code, in 32 bit arithmetic. *)
Theorem checksum_is_base31 (str : list Z) :
  Utils.checksum str = Utils.toInt32 (base31 str) /\
  (- 2 ^ 31 <= Utils.checksum str < 2 ^ 31)%Z /\
  Utils.checksum [] = 0%Z /\
  (forall c, Utils.checksum (str ++ [c]) = Utils.toInt32 (31 * Utils.checksum str + c)).
Proof.
  assert (forall s, Utils.checksum s = Utils.toInt32 (base31 s)) as Hsum.
  { intros s. unfold Utils.checksum, base31.
    change 0%Z with (Utils.toInt32 0) at 1. apply checksum_fold. }
  split; [apply Hsum|]. split; [rewrite Hsum; apply toInt32_range|].
  split; [reflexivity|].
  intros c. rewrite !Hsum. unfold base31. rewrite fold_left_app. cbn [fold_left].
  destruct (toInt32_off (fold_left (fun acc c0 => (31 * acc + c0)%Z) str 0%Z)) as [k ->].
  replace (31 * (fold_left (fun acc c0 => (31 * acc + c0)%Z) str 0%Z + 2 ^ 32 * k) + c)%Z
    with (31 * fold_left (fun acc c0 => (31 * acc + c0)%Z) str 0%Z + c + 2 ^ 32 * (31 * k))%Z
    by ring.
  symmetry. apply toInt32_multiple.
Qed.

(** ** [removeFromArray] *)

Section RemoveFromArray.

Context {A : Type} `{EqDecision A}.

Lemma removeLoop_spec (fuel : nat) (array : list A) (obj : A) (removed : bool) :
  (length array <= fuel)%nat ->
  Utils.removeLoop fuel array obj removed =
  Some (filter (fun x => x <> obj) array, removed || bool_decide (obj ∈ array)).
Proof.
  revert array removed. induction fuel as [|fuel IH]; intros array removed Hfuel.
  - destruct array; [|cbn in Hfuel; lia]. cbn. rewrite orb_false_r. reflexivity.
  - cbn [Utils.removeLoop]. destruct (list_find (fun x => x = obj) array) as [[i x]|] eqn:E.
    + apply list_find_Some in E as [Hi [-> _]].
      pose proof (lookup_lt_Some _ _ _ Hi) as Hlen.
      rewrite IH by (rewrite length_delete by (eexists; exact Hi); lia).
      f_equal. f_equal.
      * rewrite <- (take_drop_middle array i obj Hi) at 2.
        rewrite delete_take_drop, !filter_app. f_equal.
        rewrite filter_cons_False by (intros H; apply H; reflexivity). reflexivity.
      * rewrite orb_true_l. symmetry. rewrite orb_true_iff. right.
        apply bool_decide_eq_true_2, list_elem_of_lookup. exists i. exact Hi.
    + apply list_find_None in E. f_equal. f_equal.
      * symmetry. induction array as [|y array IHa]; [reflexivity|].
        apply Forall_cons in E as [Hy E].
        rewrite filter_cons_True by exact Hy. f_equal. apply IHa; [|exact E].
        cbn in Hfuel. lia.
      * rewrite bool_decide_eq_false_2; [rewrite orb_false_r; reflexivity|].
        intros Hin. rewrite Forall_forall in E. exact (E _ Hin eq_refl).
Qed.

End RemoveFromArray.

(** X27. [removeFromArray] ends (as many turns as the array is long are
    enough) with every entry equal to the value taken out and the other
    entries kept in their order, and tells whether there was any. *)
Theorem removeFromArray_filters {A : Type} `{EqDecision A}
    (fuel : nat) (array : list A) (obj : A) :
  (length array <= fuel)%nat ->
  Utils.removeFromArray fuel array obj =
  Some (filter (fun x => x <> obj) array, bool_decide (obj ∈ array)).
Proof.
  intros Hfuel. unfold Utils.removeFromArray.
  rewrite removeLoop_spec by exact Hfuel. reflexivity.
Qed.

Lemma removeFromArray_filters_witness :
  Utils.removeFromArray 5 [3; 1; 3; 2; 3]%nat 3%nat = Some ([1; 2]%nat, true) /\
  Utils.removeFromArray 5 [3; 1; 3; 2; 3]%nat 4%nat = Some ([3; 1; 3; 2; 3]%nat, false).
Proof.
  split.
  - rewrite (removeFromArray_filters 5 [3; 1; 3; 2; 3]%nat 3%nat) by (cbn; lia). reflexivity.
  - reflexivity.
Defined.

(** ** [stableSort] *)

Section Merge.

Context {A : Type}.
Variable comp : A -> A -> Z.

Lemma merge_nil_l (right : list A) : Utils.merge comp [] right = right.
Proof. destruct right; reflexivity. Qed.

Lemma merge_nil_r (left : list A) : Utils.merge comp left [] = left.
Proof. destruct left; reflexivity. Qed.

Lemma merge_cons (a b : A) (left right : list A) :
  Utils.merge comp (a :: left) (b :: right) =
  if (comp a b <=? 0)%Z then a :: Utils.merge comp left (b :: right)
  else b :: Utils.merge comp (a :: left) right.
Proof. reflexivity. Qed.

(** Merging loses and adds nothing. *)
Lemma merge_perm (left right : list A) : Utils.merge comp left right ≡ₚ left ++ right.
Proof.
  revert right. induction left as [|a left IHl]; intros right.
  - rewrite merge_nil_l. reflexivity.
  - induction right as [|b right IHr].
    + rewrite merge_nil_r, app_nil_r. reflexivity.
    + rewrite merge_cons. destruct (comp a b <=? 0)%Z.
      * cbn. apply Permutation_cons; [reflexivity|]. apply IHl.
      * etrans; [apply Permutation_cons; [reflexivity | exact IHr]|].
        apply (Permutation_middle (a :: left) right b).
Qed.

Lemma merge_length (left right : list A) :
  length (Utils.merge comp left right) = (length left + length right)%nat.
Proof. rewrite (Permutation_length (merge_perm left right)). apply length_app. Qed.

Hypothesis total : forall a b, before comp a b \/ before comp b a.
Hypothesis trans : forall a b c, before comp a b -> before comp b c -> before comp a c.

(** Merging two sorted chunks gives a sorted chunk. *)
Lemma merge_sorted (left right : list A) :
  StronglySorted (before comp) left -> StronglySorted (before comp) right ->
  StronglySorted (before comp) (Utils.merge comp left right).
Proof.
  revert right. induction left as [|a left IHl]; intros right Hl Hr.
  - rewrite merge_nil_l. exact Hr.
  - induction right as [|b right IHr].
    + rewrite merge_nil_r. exact Hl.
    + rewrite merge_cons.
      apply StronglySorted_inv in Hl as Hl'. destruct Hl' as [Hl1 Hl2].
      apply StronglySorted_inv in Hr as Hr'. destruct Hr' as [Hr1 Hr2].
      destruct (Z.leb_spec (comp a b) 0) as [Hab|Hab].
      * constructor; [apply IHl; assumption|].
        rewrite (merge_perm left (b :: right)). apply Forall_app. split; [exact Hl2|].
        constructor; [exact Hab|].
        eapply Forall_impl; [exact Hr2|]. intros y Hy. exact (trans a b y Hab Hy).
      * assert (before comp b a) as Hba.
        { destruct (total a b) as [H|H]; [unfold before in H; lia | exact H]. }
        constructor; [apply IHr; exact Hr1|].
        rewrite (merge_perm (a :: left) right). apply Forall_app. split; [|exact Hr2].
        constructor; [exact Hba|].
        eapply Forall_impl; [exact Hl2|]. intros y Hy. exact (trans b a y Hba Hy).
Qed.

(** Merging two sorted chunks keeps the entries that are tied with [x] in
    their order: those of the left chunk, then those of the right one. *)
Lemma merge_stable (x : A) (left right : list A) :
  StronglySorted (before comp) left -> StronglySorted (before comp) right ->
  List.filter (tied comp x) (Utils.merge comp left right)
  = List.filter (tied comp x) left ++ List.filter (tied comp x) right.
Proof.
  revert right. induction left as [|a left IHl]; intros right Hl Hr.
  - rewrite merge_nil_l. reflexivity.
  - induction right as [|b right IHr].
    + rewrite merge_nil_r, app_nil_r. reflexivity.
    + rewrite merge_cons.
      apply StronglySorted_inv in Hl as Hl'. destruct Hl' as [Hl1 Hl2].
      apply StronglySorted_inv in Hr as Hr'. destruct Hr' as [Hr1 Hr2].
      destruct (Z.leb_spec (comp a b) 0) as [Hab|Hab].
      * cbn [List.filter]. rewrite (IHl (b :: right) Hl1 Hr).
        destruct (tied comp x a); reflexivity.
      * assert (forall l, List.filter (tied comp x) (b :: l)
                          = (if tied comp x b then [b] else []) ++ List.filter (tied comp x) l)
          as Hb by (intros l; cbn; destruct (tied comp x b); reflexivity).
        rewrite !Hb, (IHr Hr1).
        destruct (tied comp x b) eqn:Etie; [|reflexivity].
        (* [b] is tied with [x] and strictly before [a]: nothing on the left is tied *)
        assert (List.filter (tied comp x) (a :: left) = []) as ->; [|reflexivity].
        apply andb_true_iff in Etie as [Hxb Hbx].
        apply Z.leb_le in Hxb, Hbx.
        assert (Forall (fun y => tied comp x y = false) (a :: left)) as Hnone.
        { assert (Forall (before comp a) (a :: left)) as Hall.
          { constructor; [|exact Hl2]. destruct (total a a); assumption. }
          eapply Forall_impl; [exact Hall|]. intros y Hay.
          destruct (tied comp x y) eqn:E; [|reflexivity]. exfalso.
          apply andb_true_iff in E as [_ Hyx]. apply Z.leb_le in Hyx.
          assert (before comp a b) as H.
          { apply (trans a y b Hay). apply (trans y x b); assumption. }
          unfold before in H. lia. }
        clear - Hnone. induction Hnone as [|y l Hy _ IH]; [reflexivity|].
        cbn [List.filter]. rewrite Hy. exact IH.
Qed.

End Merge.

Lemma pairs_ind {B} (P : list B -> Prop) :
  P [] -> (forall c, P [c]) -> (forall c1 c2 rest, P rest -> P (c1 :: c2 :: rest)) ->
  forall l, P l.
Proof.
  intros H0 H1 H2 l.
  enough (P l /\ forall c, P (c :: l)) as [H _] by exact H.
  induction l as [|c l [IH1 IH2]]; (split; [|intros c']).
  - exact H0.
  - apply H1.
  - apply IH2.
  - apply H2, IH1.
Qed.

Lemma Chunked_tail {A} (chk : nat) (c : list A) (cs : list (list A)) :
  Chunked chk (c :: cs) -> Chunked chk cs.
Proof. inversion 1; subst; [constructor | assumption]. Qed.

Lemma Chunked_head {A} (chk : nat) (c : list A) (cs : list (list A)) :
  Chunked chk (c :: cs) -> (0 < chk)%nat -> (0 < length c <= chk)%nat.
Proof. inversion 1; subst; lia. Qed.

Lemma Chunked_full {A} (chk : nat) (c : list A) (cs : list (list A)) :
  Chunked chk (c :: cs) -> cs <> [] -> length c = chk.
Proof. inversion 1; subst; [congruence | reflexivity]. Qed.

Lemma Chunked_length {A} (chk : nat) (cs : list (list A)) :
  (0 < chk)%nat -> Chunked chk cs -> (length cs <= length (concat cs))%nat.
Proof.
  intros Hchk. induction cs as [|c cs IH]; intros Hcs; [reflexivity|].
  pose proof (Chunked_head _ _ _ Hcs Hchk). apply Chunked_tail in Hcs.
  cbn [concat length]. rewrite length_app. specialize (IH Hcs). lia.
Qed.

(** A cut whose chunk covers the array is one chunk at most. *)
Lemma Chunked_covered {A} (chk : nat) (cs : list (list A)) :
  (0 < chk)%nat -> Chunked chk cs -> (length (concat cs) <= chk)%nat ->
  cs = [] \/ exists c, cs = [c].
Proof.
  intros Hchk Hcs Hlen. destruct cs as [|c [|c' cs]]; [left; reflexivity| |].
  - right. exists c. reflexivity.
  - exfalso. pose proof (Chunked_full _ _ _ Hcs ltac:(discriminate)) as Hc.
    apply Chunked_tail in Hcs. pose proof (Chunked_head _ _ _ Hcs Hchk).
    cbn [concat] in Hlen. rewrite !length_app in Hlen. lia.
Qed.

Lemma Chunked_singletons {A} (arr : list A) : Chunked 1 ((fun x => [x]) <$> arr).
Proof.
  induction arr as [|a [|b arr] IH]; [constructor | constructor; cbn; lia |].
  apply Chunked_cons; [reflexivity | discriminate | exact IH].
Qed.

Lemma concat_singletons {A} (arr : list A) : concat ((fun x => [x]) <$> arr) = arr.
Proof. induction arr as [|a arr IH]; [reflexivity|]. cbn. f_equal. exact IH. Qed.

Section Passes.

Context {A : Type}.
Variable comp : A -> A -> Z.

Lemma mergePairs_nonempty (cs : list (list A)) : cs <> [] -> mergePairs comp cs <> [].
Proof. destruct cs as [|c1 [|c2 cs]]; [congruence | discriminate | discriminate]. Qed.

(** The front of a cut, and what is behind it. *)
Lemma Chunked_front (chk : nat) (c : list A) (cs : list (list A)) :
  (0 < chk)%nat -> Chunked chk (c :: cs) ->
  take chk (c ++ concat cs) = c /\ drop chk (c ++ concat cs) = concat cs.
Proof.
  intros Hchk Hcs. destruct cs as [|c' cs].
  - pose proof (Chunked_head _ _ _ Hcs Hchk). cbn [concat]. rewrite app_nil_r.
    split; [apply take_ge; lia | apply drop_ge; lia].
  - pose proof (Chunked_full _ _ _ Hcs ltac:(discriminate)) as Hc.
    split; [apply take_app_length'; congruence | apply drop_app_length'; congruence].
Qed.

Lemma passFrom_step (fuel chk : nat) (rest : list A) :
  rest <> [] ->
  Utils.passFrom (S fuel) comp chk rest =
  match Utils.passFrom fuel comp chk (drop (2 * chk) rest) with
  | Some tail =>
      Some (Utils.merge comp (take chk rest) (take chk (drop chk rest)) ++ tail)
  | None => None
  end.
Proof. destruct rest; [congruence | reflexivity]. Qed.

(** One pass over an array that is cut into chunks merges the chunks two
    by two. *)
Lemma passFrom_chunks (chk : nat) (cs : list (list A)) :
  (0 < chk)%nat -> Chunked chk cs ->
  forall fuel, (length cs <= fuel)%nat ->
  Utils.passFrom fuel comp chk (concat cs) = Some (concat (mergePairs comp cs)).
Proof.
  intros Hchk. induction cs as [|c|c1 c2 rest IH] using pairs_ind; intros Hcs fuel Hfuel.
  - destruct fuel; reflexivity.
  - pose proof (Chunked_head _ _ _ Hcs Hchk) as Hc.
    destruct fuel as [|fuel]; [cbn in Hfuel; lia|].
    cbn [concat mergePairs]. rewrite app_nil_r.
    rewrite passFrom_step by (destruct c; [cbn in Hc; lia | discriminate]).
    rewrite (drop_ge c (2 * chk)) by lia.
    rewrite (take_ge c chk), (drop_ge c chk) by lia.
    rewrite take_nil, merge_nil_r.
    destruct fuel; cbn [Utils.passFrom]; rewrite app_nil_r; reflexivity.
  - pose proof (Chunked_front _ _ _ Hchk Hcs) as [Htake Hdrop].
    pose proof (Chunked_head _ _ _ Hcs Hchk) as Hc1.
    apply Chunked_tail in Hcs.
    pose proof (Chunked_front _ _ _ Hchk Hcs) as [Htake' Hdrop'].
    apply Chunked_tail in Hcs.
    destruct fuel as [|[|fuel]]; [cbn in Hfuel; lia | cbn in Hfuel; lia |].
    change (concat (c1 :: c2 :: rest)) with (c1 ++ concat (c2 :: rest)).
    rewrite passFrom_step by (destruct c1; [cbn in Hc1; lia | discriminate]).
    replace (2 * chk)%nat with (chk + chk)%nat by lia.
    rewrite <- drop_drop, Htake, Hdrop.
    change (concat (c2 :: rest)) with (c2 ++ concat rest).
    rewrite Htake', Hdrop'.
    rewrite (IH Hcs (S fuel)) by (cbn in Hfuel; lia).
    reflexivity.
Qed.

Lemma pass_chunks (chk : nat) (cs : list (list A)) :
  (0 < chk)%nat -> Chunked chk cs ->
  Utils.pass comp chk (concat cs) = Some (concat (mergePairs comp cs)).
Proof.
  intros Hchk Hcs. apply passFrom_chunks; [assumption..|].
  apply Chunked_length with chk; assumption.
Qed.

(** The copying pass of [inplace]: one chunk that covers the array. *)
Lemma pass_copies (chk : nat) (arr : list A) :
  (0 < chk)%nat -> (length arr <= chk)%nat -> Utils.pass comp chk arr = Some arr.
Proof.
  intros Hchk Hlen. destruct arr as [|a arr]; [reflexivity|].
  assert (Chunked chk [a :: arr]) as Hcs by (constructor; cbn in *; lia).
  pose proof (pass_chunks chk _ Hchk Hcs) as H. cbn [concat mergePairs] in H.
  rewrite app_nil_r in H. exact H.
Qed.

Lemma mergePairs_Chunked (chk : nat) (cs : list (list A)) :
  (0 < chk)%nat -> Chunked chk cs -> Chunked (chk * 2) (mergePairs comp cs).
Proof.
  intros Hchk. induction cs as [|c|c1 c2 rest IH] using pairs_ind; intros Hcs.
  - constructor.
  - pose proof (Chunked_head _ _ _ Hcs Hchk). constructor. lia.
  - pose proof (Chunked_full _ _ _ Hcs ltac:(discriminate)) as Hc1.
    apply Chunked_tail in Hcs. pose proof (Chunked_head _ _ _ Hcs Hchk) as Hc2.
    cbn [mergePairs]. destruct rest as [|c3 rest].
    + constructor. rewrite merge_length. lia.
    + pose proof (Chunked_full _ _ _ Hcs ltac:(discriminate)) as Hc2'.
      apply Chunked_tail in Hcs. apply Chunked_cons.
      * rewrite merge_length. lia.
      * apply mergePairs_nonempty. discriminate.
      * apply IH, Hcs.
Qed.

Lemma mergePairs_perm (cs : list (list A)) : concat (mergePairs comp cs) ≡ₚ concat cs.
Proof.
  induction cs as [|c|c1 c2 rest IH] using pairs_ind; [reflexivity..|].
  cbn [mergePairs concat]. rewrite merge_perm, IH, app_assoc. reflexivity.
Qed.

Hypothesis Hcomp : consistent comp.

Lemma mergePairs_sorted (cs : list (list A)) :
  Forall (StronglySorted (before comp)) cs ->
  Forall (StronglySorted (before comp)) (mergePairs comp cs).
Proof.
  destruct Hcomp as [total trans].
  induction cs as [|c|c1 c2 rest IH] using pairs_ind; intros Hcs; [assumption..|].
  apply Forall_cons in Hcs as [H1 Hcs]. apply Forall_cons in Hcs as [H2 Hcs].
  cbn [mergePairs]. constructor; [apply merge_sorted; assumption | apply IH, Hcs].
Qed.

Lemma mergePairs_stable (x : A) (cs : list (list A)) :
  Forall (StronglySorted (before comp)) cs ->
  List.filter (tied comp x) (concat (mergePairs comp cs))
  = List.filter (tied comp x) (concat cs).
Proof.
  destruct Hcomp as [total trans].
  induction cs as [|c|c1 c2 rest IH] using pairs_ind; intros Hcs; [reflexivity..|].
  apply Forall_cons in Hcs as [H1 Hcs]. apply Forall_cons in Hcs as [H2 Hcs].
  cbn [mergePairs concat]. rewrite !List.filter_app, (IH Hcs).
  rewrite (merge_stable comp total trans) by assumption.
  rewrite app_assoc. reflexivity.
Qed.

End Passes.

Section ExecLoop.

Context {A : Type}.
Variable comp : A -> A -> Z.

Lemma execLoop_eq (fuel chk : nat) (arr : list A) (swapped : bool) :
  Utils.execLoop fuel comp chk arr swapped =
  if (chk <? length arr)%nat then
    match fuel with
    | O => None
    | S fuel' =>
        match Utils.pass comp chk arr with
        | Some buffer => Utils.execLoop fuel' comp (chk * 2) buffer (negb swapped)
        | None => None
        end
    end
  else Some (arr, swapped).
Proof. destruct fuel; reflexivity. Qed.

(** The passes from a cut into chunks on: they end, keep the entries,
    and, the comparator being consistent and every chunk sorted, the
    outcome is sorted and the tied entries are in the order they had. *)
Lemma execLoop_chunks (fuel : nat) :
  forall (chk : nat) (cs : list (list A)) (swapped : bool),
  (0 < chk)%nat -> Chunked chk cs -> (length (concat cs) <= fuel + chk)%nat ->
  exists result swapped',
    Utils.execLoop fuel comp chk (concat cs) swapped = Some (result, swapped') /\
    result ≡ₚ concat cs /\
    (consistent comp -> Forall (StronglySorted (before comp)) cs ->
     StronglySorted (before comp) result /\
     forall x, List.filter (tied comp x) result = List.filter (tied comp x) (concat cs)).
Proof.
  induction fuel as [|fuel IH]; intros chk cs swapped Hchk Hcs Hlen;
    rewrite execLoop_eq; destruct (Nat.ltb_spec chk (length (concat cs))) as [Hlt|Hge];
    try lia.
  1, 3: exists (concat cs), swapped; split; [reflexivity|]; split; [reflexivity|];
    intros _ Hsorted; split; [|reflexivity];
    destruct (Chunked_covered chk cs Hchk Hcs Hge) as [->|[c ->]];
    [apply SSorted_nil | apply Forall_cons in Hsorted as [H _]; cbn; rewrite app_nil_r; exact H].
  rewrite (pass_chunks comp chk cs Hchk Hcs).
  destruct (IH (chk * 2)%nat (mergePairs comp cs) (negb swapped)) as (result & sw & Hrun & Hperm & Hsort).
  - lia.
  - apply mergePairs_Chunked; assumption.
  - rewrite (Permutation_length (mergePairs_perm comp cs)). lia.
  - exists result, sw. split; [exact Hrun|]. split.
    + rewrite Hperm. apply mergePairs_perm.
    + intros Hcomp Hsorted.
      destruct (Hsort Hcomp (mergePairs_sorted comp Hcomp cs Hsorted)) as [Hs Hf].
      split; [exact Hs|]. intros x. rewrite Hf. apply mergePairs_stable; assumption.
Qed.

End ExecLoop.

(** [exec]: the passes on an array of any length. *)
Lemma exec_spec {A : Type} (localeCompare : A -> A -> Z) (arr : list A)
    (comp : option (A -> A -> Z)) :
  exists result swapped,
    Utils.exec localeCompare arr comp = Some (result, swapped) /\
    result ≡ₚ arr /\
    (consistent (default localeCompare comp) ->
     StronglySorted (before (default localeCompare comp)) result /\
     forall x, List.filter (tied (default localeCompare comp) x) result
               = List.filter (tied (default localeCompare comp) x) arr).
Proof.
  unfold Utils.exec. set (c := default localeCompare comp).
  destruct (Nat.leb_spec (length arr) 1) as [Hshort|Hlong].
  - exists arr, false. split; [reflexivity|]. split; [reflexivity|].
    intros _. split; [|reflexivity].
    destruct arr as [|a [|b arr]]; [constructor | repeat constructor | cbn in Hshort; lia].
  - destruct (execLoop_chunks c (length arr) 1 ((fun x => [x]) <$> arr) false)
      as (result & swapped & Hrun & Hperm & Hsort).
    + lia.
    + apply Chunked_singletons.
    + rewrite concat_singletons. lia.
    + rewrite concat_singletons in Hrun, Hperm, Hsort.
      exists result, swapped. split; [exact Hrun|]. split; [exact Hperm|].
      intros Hcomp. apply (Hsort Hcomp).
      apply Forall_fmap, Forall_true. intros x. repeat constructor.
Qed.

(** X28. [stableSort] ends for every comparator, also one that stands for
    no order, and its result holds the entries of the array, each as often
    as the array does; [stableSort.inplace] leaves the same result in the
    array, whether the last pass wrote to the array or to the buffer. *)
Theorem stableSort_permutes {A : Type} (localeCompare : A -> A -> Z) (arr : list A)
    (comp : option (A -> A -> Z)) :
  exists result,
    Utils.stableSort localeCompare arr comp = Some result /\
    Utils.inplace localeCompare arr comp = Some result /\
    result ≡ₚ arr.
Proof.
  destruct (exec_spec localeCompare arr comp) as (result & swapped & Hrun & Hperm & _).
  exists result. unfold Utils.stableSort, Utils.inplace. rewrite Hrun.
  split; [reflexivity|]. split; [|exact Hperm].
  destruct swapped; [|reflexivity].
  destruct result as [|a result]; [reflexivity|].
  pose proof (Permutation_length Hperm) as Hlen.
  apply pass_copies; rewrite <- Hlen; cbn; lia.
Qed.

(** X29. With a comparator that stands for an order (any two entries
    comparable, transitive), the result of [stableSort] is sorted, and
    entries that the comparator does not tell apart stay in the order
    they had in the array. *)
Theorem stableSort_sorts_stably {A : Type} (localeCompare : A -> A -> Z) (arr : list A)
    (comp : option (A -> A -> Z)) :
  consistent (default localeCompare comp) ->
  exists result,
    Utils.stableSort localeCompare arr comp = Some result /\
    StronglySorted (before (default localeCompare comp)) result /\
    forall x, List.filter (tied (default localeCompare comp) x) result
              = List.filter (tied (default localeCompare comp) x) arr.
Proof.
  intros Hcomp.
  destruct (exec_spec localeCompare arr comp) as (result & swapped & Hrun & _ & Hsort).
  exists result. unfold Utils.stableSort. rewrite Hrun.
  split; [reflexivity|]. exact (Hsort Hcomp).
Qed.

Lemma stableSort_sorts_stably_witness :
  consistent byKey /\
  exists result,
    Utils.stableSort byKey [(2, "a"); (1, "b"); (2, "c"); (1, "d")]%Z (Some byKey)
    = Some result /\
    StronglySorted (before byKey) result /\
    forall x, List.filter (tied byKey x) result
              = List.filter (tied byKey x) [(2, "a"); (1, "b"); (2, "c"); (1, "d")]%Z.
Proof.
  assert (consistent byKey) as Hcomp by (split; unfold before, byKey; intros; lia).
  split; [exact Hcomp|].
  exact (stableSort_sorts_stably byKey [(2, "a"); (1, "b"); (2, "c"); (1, "d")]%Z
           (Some byKey) Hcomp).
Defined.
